(** * Voice Chess: the game-state and command-resolution core of [main.py]

    The program keeps three module-level objects, the [chess.Board], the
    list [move_history] of notation strings and the list [redo_stack] of
    undone moves, and drives them from spoken commands.  This development
    embeds [parse_command], [make_move], [undo_move], [redo_move],
    [play_best], [save_pgn], [draw_status] and the body of the main loop,
    and states the properties of the session over that embedding.

    The rules of chess come from the python-chess package, which is not
    part of the program: they enter as the operations of the class
    [ChessLib] below, about which nothing is assumed.  A small concrete
    instance ([Fragment]) is used to run the program on explicit inputs. *)

From Stdlib Require Import Strings.String Strings.Ascii Arith.PeanoNat Lia.
From stdpp Require Import base option list strings pretty gmap.

Local Open Scope string_scope.
Local Open Scope list_scope.

(** ** Python values, exceptions and built-in operations *)

(** The exceptions the modelled code can raise. *)
Inductive exn : Type :=
| IndexError        (* [cmd[0]] on an empty [str], [pop()] on an empty list *)
| InvalidMoveError  (* [chess.Move.from_uci] on a malformed string *)
| AssertionError    (* [board.san] on a move it cannot render *)
| AttributeError    (* attribute access on [None] *)
| TypeError         (* [len(None)] *)
| KeyError          (* a missing dictionary key *)
| EngineError.      (* any failure of the engine process *)

Definition exn_name (e : exn) : string :=
  match e with
  | IndexError => "IndexError"
  | InvalidMoveError => "InvalidMoveError"
  | AssertionError => "AssertionError"
  | AttributeError => "AttributeError"
  | TypeError => "TypeError"
  | KeyError => "KeyError"
  | EngineError => "EngineError"
  end.

(** The values returned by the functions of the program. *)
Inductive pyval : Type :=
| PyNone
| PyBool (b : bool)
| PyStr (s : string).

(** Result of a function that touches no global: a value or an exception. *)
Inductive result (A : Type) : Type :=
| Ok (a : A)
| Err (e : exn).
Arguments Ok {A} a.
Arguments Err {A} e.

(** [l.pop()]: the list without its last element, and that element;
    [None] stands for the [IndexError] of an empty list. *)
Fixpoint list_pop {A : Type} (l : list A) : option (list A * A) :=
  match l with
  | [] => None
  | x :: l' =>
      match list_pop l' with
      | None => Some ([], x)
      | Some (front, y) => Some (x :: front, y)
      end
  end.

(** Truth value of a list: [if l:]. *)
Definition list_bool {A : Type} (l : list A) : bool :=
  match l with [] => false | _ :: _ => true end.

(** [s.replace(" ", "")]: every space character is dropped. *)
Fixpoint remove_spaces (s : string) : string :=
  match s with
  | EmptyString => EmptyString
  | String c rest =>
      if Ascii.eqb c " "%char then remove_spaces rest
      else String c (remove_spaces rest)
  end.

(** [c.upper()] on an ASCII character: [a]..[z] go to [A]..[Z].  A
    character outside ASCII is left as it is here, where Python may change
    it, and to more than one character; what depends on the characters of
    a string is stated for strings of ASCII characters. *)
Definition upper (c : ascii) : ascii :=
  let n := nat_of_ascii c in
  if ((97 <=? n) && (n <=? 122))%nat then ascii_of_nat (n - 32) else c.

(** [c.lower()] on an ASCII character. *)
Definition lower (c : ascii) : ascii :=
  let n := nat_of_ascii c in
  if ((65 <=? n) && (n <=? 90))%nat then ascii_of_nat (n + 32) else c.

(** [x in [..]] for strings. *)
Definition str_in (s : string) (l : list string) : bool :=
  existsb (String.eqb s) l.

(** ** The command interpreter: [parse_command]

<<
def parse_command(cmd):
    if not cmd:
        return None
    cmd = cmd.replace(" ", "")
    if cmd in ["undo", "redo", "playbestmove"]:
        return cmd
    if len(cmd) == 2:
        return cmd
    return cmd[0].upper() + cmd[1:]
>>
    The argument is a [str] of ASCII characters (the recogniser's
    lower-cased transcript); [None] as a result is [Ok None]. *)
Definition parse_command (cmd : string) : result (option string) :=
  if String.eqb cmd "" then Ok None
  else
    let cmd := remove_spaces cmd in
    if str_in cmd ["undo"; "redo"; "playbestmove"] then Ok (Some cmd)
    else if (String.length cmd =? 2)%nat then Ok (Some cmd)
    else
      match cmd with
      | EmptyString => Err IndexError
      | String c rest => Ok (Some (String (upper c) rest))
      end.

(** ** The chess library

    What the program uses of python-chess.  A [Position] is what a
    [chess.Board] holds besides its move stack: piece placement, side to
    move, castling rights, en-passant square, half-move clock and full-move
    number.  Operations that raise in Python return [None] here. *)
Class ChessLib : Type := {
  Position : Type;
  Move : Type;
  (** the position of [chess.Board()] *)
  starting_position : Position;
  (** [bool(move)]: false for the null move *)
  move_bool : Move → bool;
  (** [chess.Move.from_uci(s)]; [None]: raises [InvalidMoveError] *)
  from_uci : string → option Move;
  (** [board.parse_san(s)]; [None]: raises *)
  parse_san : Position → string → option Move;
  (** [move in board.legal_moves] *)
  is_legal : Position → Move → bool;
  (** [board.san(move)]; [None]: raises *)
  san : Position → Move → option string;
  (** the position after [board.push(move)] *)
  apply_move : Position → Move → Position;
  is_checkmate : Position → bool;
  is_check : Position → bool;
  is_stalemate : Position → bool;
  (** the text [print(game, file=f)] writes for the game whose main line
      is the given moves *)
  pgn_text : list Move → string;
}.

(** What the engine process answers to [engine.play]: a failure, or a
    result whose [move] attribute is a move or [None]. *)
Inductive play_answer `{ChessLib} : Type :=
| PlayFails
| PlayResult (move : option Move).

(** What [engine.analyse] answers: a failure, or an info dictionary whose
    ["pv"] entry, when present, is a list of moves. *)
Inductive analyse_answer `{ChessLib} : Type :=
| AnalyseFails
| AnalyseInfo (pv : option (list Move)).

Section Program.
Context `{L : ChessLib}.

(** ** The board object

    [move_stack] is the public list of pushed moves; [state_stack] is the
    list of positions saved by [push] (python-chess's [_stack]), from which
    [pop] restores. *)
Record Board : Type := mkBoard {
  position : Position;
  move_stack : list Move;
  state_stack : list Position;
}.

(** [chess.Board()] *)
Definition new_board : Board :=
  {| position := starting_position; move_stack := []; state_stack := [] |}.

(** [board.push(move)]: no legality check is made. *)
Definition push (b : Board) (m : Move) : Board :=
  {| position := apply_move (position b) m;
     move_stack := move_stack b ++ [m];
     state_stack := state_stack b ++ [position b] |}.

(** [board.pop()]: the last move and the board restored to the position
    saved when it was pushed; [None]: [IndexError] on an empty stack. *)
Definition pop (b : Board) : option (Move * Board) :=
  match list_pop (move_stack b), list_pop (state_stack b) with
  | Some (ms, m), Some (ss, p) =>
      Some (m, {| position := p; move_stack := ms; state_stack := ss |})
  | _, _ => None
  end.

(** ** The globals of the module *)
Record State : Type := mkState {
  board : Board;
  move_history : list string;
  redo_stack : list Move;
  (** whether [engine] is an engine object rather than [None] *)
  engine : bool;
  (** the texts written to [game_log.pgn], oldest first; each write
      replaces the file, whose content is the last one *)
  game_log : list string;
  (** lines printed on standard output *)
  console : list string;
  (** texts drawn by [draw_status] *)
  screen : list string;
}.

Definition set_board (b : Board) (st : State) : State :=
  mkState b (move_history st) (redo_stack st) (engine st)
          (game_log st) (console st) (screen st).
Definition set_move_history (h : list string) (st : State) : State :=
  mkState (board st) h (redo_stack st) (engine st)
          (game_log st) (console st) (screen st).
Definition set_redo_stack (r : list Move) (st : State) : State :=
  mkState (board st) (move_history st) r (engine st)
          (game_log st) (console st) (screen st).
Definition set_game_log (g : list string) (st : State) : State :=
  mkState (board st) (move_history st) (redo_stack st) (engine st)
          g (console st) (screen st).
Definition set_console (c : list string) (st : State) : State :=
  mkState (board st) (move_history st) (redo_stack st) (engine st)
          (game_log st) c (screen st).
Definition set_screen (s : list string) (st : State) : State :=
  mkState (board st) (move_history st) (redo_stack st) (engine st)
          (game_log st) (console st) s.

(** The state after the module has been loaded. *)
Definition initial_state (has_engine : bool) : State :=
  mkState new_board [] [] has_engine [] [] [].

(** ** Statements: state passing with exceptions *)
Inductive outcome (A : Type) : Type :=
| Done (a : A) (st : State)
| Raised (e : exn) (st : State).
Arguments Done {A} a st.
Arguments Raised {A} e st.

Definition state_of {A : Type} (o : outcome A) : State :=
  match o with Done _ st => st | Raised _ st => st end.

Definition py (A : Type) : Type := State → outcome A.

Definition ret {A : Type} (a : A) : py A := λ st, Done a st.
Definition raise {A : Type} (e : exn) : py A := λ st, Raised e st.
Definition bind {A B : Type} (c : py A) (k : A → py B) : py B :=
  λ st, match c st with
        | Done a st' => k a st'
        | Raised e st' => Raised e st'
        end.
Definition get : py State := λ st, Done st st.
Definition modify (f : State → State) : py unit := λ st, Done tt (f st).
(** [try: c except: h] *)
Definition try_except {A : Type} (c : py A) (h : exn → py A) : py A :=
  λ st, match c st with
        | Done a st' => Done a st'
        | Raised e st' => h e st'
        end.
Definition of_option {A : Type} (o : option A) (e : exn) : py A :=
  match o with Some a => ret a | None => raise e end.
Definition of_result {A : Type} (r : result A) : py A :=
  match r with Ok a => ret a | Err e => raise e end.

Notation "x <- c ;; k" := (bind c (λ x, k))
  (at level 100, c at next level, right associativity).
Notation "c ;;; k" := (bind c (λ _, k))
  (at level 100, right associativity).

Definition print (line : string) : py unit :=
  modify (λ st, set_console (console st ++ [line]) st).
Definition blit (text : string) : py unit :=
  modify (λ st, set_screen (screen st ++ [text]) st).

(** ** The transcript writer: [save_pgn]

<<
def save_pgn():
    game = chess.pgn.Game()
    node = game
    for m in board.move_stack:
        node = node.add_variation(m)
    with open("game_log.pgn", "w") as f:
        print(game, file=f)
>>
    The write itself is taken to succeed.  An [OSError] of [open] or of
    [print], which [make_move] would catch and report after the move has
    been pushed, is outside this model: what is stated here of the
    transcript, and of what [make_move] prints, is about the runs in which
    the file can be written. *)
Definition save_pgn : py pyval :=
  st <- get ;;
  modify (set_game_log (game_log st ++ [pgn_text (move_stack (board st))])) ;;;
  ret PyNone.

(** ** Applying a move: [make_move]

<<
def make_move(move_str):
    try:
        move = None
        try:
            move = board.parse_san(move_str)
        except:
            pass
        if move is None and len(move_str) == 4:
            move = chess.Move.from_uci(move_str)
        if move and move in board.legal_moves:
            san = board.san(move)
            board.push(move)
            move_history.append(san)
            redo_stack.clear()
            save_pgn()
        else:
            print("Illegal move:", move_str)
    except Exception as e:
        print("Move error:", e)
>>
    [resolve_move] is the part that computes the variable [move]: the
    algebraic reading first and, only when it raised and the string has
    length 4, the coordinate reading, whose exception is not caught here. *)
Definition resolve_move (p : Position) (move_str : string) : result (option Move) :=
  match parse_san p move_str with
  | Some m => Ok (Some m)
  | None =>
      if (String.length move_str =? 4)%nat then
        match from_uci move_str with
        | Some m => Ok (Some m)
        | None => Err InvalidMoveError
        end
      else Ok None
  end.

(** [move and move in board.legal_moves] *)
Definition move_ok (p : Position) (move : option Move) : bool :=
  match move with
  | Some m => move_bool m && is_legal p m
  | None => false
  end.

Definition make_move (move_str : string) : py pyval :=
  try_except
    (st <- get ;;
     let p := position (board st) in
     move <- of_result (resolve_move p move_str) ;;
     match move with
     | Some m =>
         if move_ok p (Some m) then
           s <- of_option (san p m) AssertionError ;;
           modify (λ st, set_board (push (board st) m) st) ;;;
           modify (λ st, set_move_history (move_history st ++ [s]) st) ;;;
           modify (set_redo_stack []) ;;;
           save_pgn
         else print ("Illegal move: " +:+ move_str) ;;; ret PyNone
     | None => print ("Illegal move: " +:+ move_str) ;;; ret PyNone
     end)
    (λ e, print ("Move error: " +:+ exn_name e) ;;; ret PyNone).

(** ** Undo and redo

<<
def undo_move():
    if board.move_stack:
        redo_stack.append(board.pop())
        move_history.pop()
>> *)
Definition undo_move : py pyval :=
  st <- get ;;
  if list_bool (move_stack (board st)) then
    popped <- of_option (pop (board st)) IndexError ;;
    modify (set_board (snd popped)) ;;;
    modify (λ st, set_redo_stack (redo_stack st ++ [fst popped]) st) ;;;
    st <- get ;;
    rest <- of_option (list_pop (move_history st)) IndexError ;;
    modify (set_move_history (fst rest)) ;;;
    ret PyNone
  else ret PyNone.

(**
<<
def redo_move():
    if redo_stack:
        move = redo_stack.pop()
        san = board.san(move)
        board.push(move)
        move_history.append(san)
>> *)
Definition redo_move : py pyval :=
  st <- get ;;
  if list_bool (redo_stack st) then
    popped <- of_option (list_pop (redo_stack st)) IndexError ;;
    modify (set_redo_stack (fst popped)) ;;;
    let move := snd popped in
    s <- of_option (san (position (board st)) move) AssertionError ;;
    modify (λ st, set_board (push (board st) move) st) ;;;
    modify (λ st, set_move_history (move_history st ++ [s]) st) ;;;
    ret PyNone
  else ret PyNone.

(** ** The advisor

<<
def play_best():
    if engine:
        result = engine.play(board, chess.engine.Limit(time=0.5))
        make_move(board.san(result.move))
>>
    The answer of the engine process is an argument. *)
Definition play_best (a : play_answer) : py pyval :=
  st <- get ;;
  if engine st then
    result_move <- match a with
                   | PlayFails => raise EngineError
                   | PlayResult mv => ret mv
                   end ;;
    m <- of_option result_move AttributeError ;;
    s <- of_option (san (position (board st)) m) AssertionError ;;
    make_move s
  else ret PyNone.

(**
<<
def draw_status():
    y = 450
    if board.is_checkmate():
        screen.blit(font.render("CHECKMATE!", True, RED), (620, y))
    elif board.is_check():
        screen.blit(font.render("CHECK!", True, RED), (620, y))
    elif board.is_stalemate():
        screen.blit(font.render("STALEMATE", True, RED), (620, y))
    if engine:
        try:
            info = engine.analyse(board, chess.engine.Limit(depth=10))
            best = board.san(info["pv"][0])
            screen.blit(font.render(f"Best Move: {best}", True, BLACK), (610, y + 30))
        except:
            pass
>> *)
Definition draw_status (a : analyse_answer) : py pyval :=
  st <- get ;;
  let p := position (board st) in
  (if is_checkmate p then blit "CHECKMATE!"
   else if is_check p then blit "CHECK!"
   else if is_stalemate p then blit "STALEMATE"
   else ret tt) ;;;
  if engine st then
    try_except
      (pv <- match a with
             | AnalyseFails => raise EngineError
             | AnalyseInfo None => raise KeyError
             | AnalyseInfo (Some pv) => ret pv
             end ;;
       m <- of_option (head pv) IndexError ;;
       best <- of_option (san p m) AssertionError ;;
       blit ("Best Move: " +:+ best) ;;;
       ret PyNone)
      (λ _, ret PyNone)
  else ret PyNone.

(** ** The main loop

    One pass of the [while running] loop of [main], from [draw_status] to
    the dispatch of the command; [speech] is what [recognize_speech]
    returned.
<<
        cmd = recognize_speech()
        if cmd:
            cmd = parse_command(cmd)
            if cmd == "undo":
                undo_move()
            elif cmd == "redo":
                redo_move()
            elif cmd == "playbestmove":
                play_best()
            else:
                make_move(cmd)
>> *)
Definition dispatch (cmd : string) (pa : play_answer) : py pyval :=
  if String.eqb cmd "undo" then undo_move
  else if String.eqb cmd "redo" then redo_move
  else if String.eqb cmd "playbestmove" then play_best pa
  else make_move cmd.

Definition main_iteration (aa : analyse_answer) (speech : option string)
    (pa : play_answer) : py pyval :=
  draw_status aa ;;;
  match speech with
  | None => ret PyNone
  | Some cmd =>
      if String.eqb cmd "" then ret PyNone
      else
        cmd <- of_result (parse_command cmd) ;;
        match cmd with
        | Some c => dispatch c pa
        | None =>
            (* [make_move(None)]: [len(None)] raises inside the [try] *)
            print ("Move error: " +:+ exn_name TypeError) ;;; ret PyNone
        end
  end.

(** The operations on the session, as the main loop dispatches them. *)
Inductive command : Type :=
| Undo
| Redo
| PlayBest (a : play_answer)
| MoveCmd (move_str : string).

Definition exec (c : command) : py pyval :=
  match c with
  | Undo => undo_move
  | Redo => redo_move
  | PlayBest a => play_best a
  | MoveCmd s => make_move s
  end.

(** Commands in sequence; an exception that leaves a command ends the run,
    as it ends the program. *)
Fixpoint run (cs : list command) : py pyval :=
  match cs with
  | [] => ret PyNone
  | c :: cs' => exec c ;;; run cs'
  end.

(** [n] calls of the same function, one after the other. *)
Fixpoint times (n : nat) (c : py pyval) : py pyval :=
  match n with
  | O => ret PyNone
  | S n' => c ;;; times n' c
  end.

(** ** Vocabulary of the properties *)

(** The move that [make_move] commits for [move_str] in position [p], if
    it commits one: the string resolves to a move that is true, legal and
    can be rendered. *)
Definition committed_move (p : Position) (move_str : string) : option (Move * string) :=
  match resolve_move p move_str with
  | Ok (Some m) =>
      if move_ok p (Some m) then
        match san p m with Some s => Some (m, s) | None => None end
      else None
  | _ => None
  end.

(** A rejected command: notation that does not parse, or a move that is
    not in the legal moves of the position. *)
Definition rejected (p : Position) (move_str : string) : bool :=
  match resolve_move p move_str with
  | Ok (Some m) => negb (move_ok p (Some m))
  | Ok None => true
  | Err _ => true
  end.

(** The state after a sequence of strings each of which [make_move]
    commits; [None] when one of them is not committed. *)
Fixpoint play_moves (toks : list string) (st : State) : option State :=
  match toks with
  | [] => Some st
  | tok :: toks' =>
      match committed_move (position (board st)) tok with
      | Some _ => play_moves toks' (state_of (make_move tok st))
      | None => None
      end
  end.

(** The session data: everything but what was printed and drawn. *)
Definition session (st : State) : Board * list string * list Move * list string :=
  (board st, move_history st, redo_stack st, game_log st).

(** The state [make_move] leaves when it commits move [m], whose notation
    is [s]. *)
Definition commit (m : Move) (s : string) (st : State) : State :=
  let b := push (board st) m in
  mkState b (move_history st ++ [s]) [] (engine st)
          (game_log st ++ [pgn_text (move_stack b)]) (console st) (screen st).

(** The state after [make_move] has printed its message for a string it
    does not apply. *)
Definition refused (line : string) (st : State) : State :=
  set_console (console st ++ [line]) st.

(** What [make_move] does once the variable [move] is computed, or once
    computing it has raised: commit, or print and leave the session as it
    is. *)
Definition settle (move : result (option Move)) (move_str : string)
    (st : State) : outcome pyval :=
  let p := position (board st) in
  match move with
  | Err e => Done PyNone (refused ("Move error: " +:+ exn_name e) st)
  | Ok None => Done PyNone (refused ("Illegal move: " +:+ move_str) st)
  | Ok (Some m) =>
      if move_ok p (Some m) then
        match san p m with
        | Some s => Done PyNone (commit m s st)
        | None => Done PyNone (refused ("Move error: " +:+ exn_name AssertionError) st)
        end
      else Done PyNone (refused ("Illegal move: " +:+ move_str) st)
  end.

(** The state [undo_move] leaves when it takes back move [m], played in
    position [p], from the stacks [ms ++ [m]], [ss ++ [p]] and [h ++ [s]]. *)
Definition undone (p : Position) (ms : list Move) (ss : list Position)
    (h : list string) (m : Move) (st : State) : State :=
  mkState (mkBoard p ms ss) h (redo_stack st ++ [m]) (engine st)
          (game_log st) (console st) (screen st).

(** The state [redo_move] leaves when it plays again move [m], whose
    notation is [s], from the redo stack [r ++ [m]]. *)
Definition redone (r : list Move) (m : Move) (s : string) (st : State) : State :=
  mkState (push (board st) m) (move_history st ++ [s]) r (engine st)
          (game_log st) (console st) (screen st).

(** The notation list agrees with the board: as many entries as stacked
    moves, the [i]-th being the notation of the [i]-th move in the
    position it was played in. *)
Definition notation_inv (st : State) : Prop :=
  length (move_history st) = length (move_stack (board st))
  ∧ length (state_stack (board st)) = length (move_stack (board st))
  ∧ ∀ i p m s,
      state_stack (board st) !! i = Some p →
      move_stack (board st) !! i = Some m →
      move_history st !! i = Some s →
      san p m = Some s.

(** A board and its notation list built by legal moves from some root
    position. *)
Inductive played : Board → list string → Prop :=
| played_root p : played (mkBoard p [] []) []
| played_push b h m s :
    played b h →
    is_legal (position b) m = true →
    san (position b) m = Some s →
    played (push b m) (h ++ [s]).

(** A redo stack whose moves can be played one after the other from
    position [p], the last pushed first. *)
Inductive redo_ok : Position → list Move → Prop :=
| redo_ok_nil p : redo_ok p []
| redo_ok_snoc p r m s :
    is_legal p m = true →
    san p m = Some s →
    redo_ok (apply_move p m) r →
    redo_ok p (r ++ [m]).

Definition session_inv (st : State) : Prop :=
  played (board st) (move_history st)
  ∧ redo_ok (position (board st)) (redo_stack st).

(** The states the program passes through: the loop goes on after a call
    that returns. *)
Inductive reachable : State → Prop :=
| reach_init has_engine : reachable (initial_state has_engine)
| reach_exec st c v st' :
    reachable st → exec c st = Done v st' → reachable st'
| reach_draw st aa v st' :
    reachable st → draw_status aa st = Done v st' → reachable st'.

(** *** The reading order of the notation, as the specification has it *)

Definition is_alnum (c : ascii) : bool :=
  let n := nat_of_ascii c in
  (((48 <=? n) && (n <=? 57)) || ((65 <=? n) && (n <=? 90))
   || ((97 <=? n) && (n <=? 122)))%nat.

(** Exactly four characters, each a letter or a digit. *)
Definition coordinate_token (s : string) : bool :=
  (String.length s =? 4)%nat && forallb is_alnum (list_ascii_of_string s).

(** The algebraic reading alone. *)
Definition algebraic_only (p : Position) (s : string) : result (option Move) :=
  Ok (parse_san p s).

(** The coordinate reading has precedence on a coordinate token: when it
    yields a move, that move is the one resolved. *)
Definition coordinate_first : Prop :=
  ∀ p s m, coordinate_token s = true → from_uci s = Some m →
           resolve_move p s = Ok (Some m).

(** Any other token has the algebraic reading only. *)
Definition algebraic_otherwise : Prop :=
  ∀ p s, coordinate_token s = false → resolve_move p s = algebraic_only p s.

(** *** Redo with a legality check, as the specification has it *)

(** [redo_move] as the specification words it: the popped move is
    validated against the legal moves of the current position before it
    is played again, and a move that fails the check is not played. *)
Definition redo_move_validating : py pyval :=
  st <- get ;;
  if list_bool (redo_stack st) then
    popped <- of_option (list_pop (redo_stack st)) IndexError ;;
    modify (set_redo_stack (fst popped)) ;;;
    let move := snd popped in
    if is_legal (position (board st)) move then
      s <- of_option (san (position (board st)) move) AssertionError ;;
      modify (λ st, set_board (push (board st) move) st) ;;;
      modify (λ st, set_move_history (move_history st ++ [s]) st) ;;;
      ret PyNone
    else ret PyNone
  else ret PyNone.

(** *** The suggestion of the advisor validated, as the specification has it *)


(** *** The result of undo, as the specification has it *)
Definition undo_returns_bool : Prop :=
  ∀ st, ∃ st', undo_move st = Done (PyBool (list_bool (move_stack (board st)))) st'.

(** *** Every application is followed by a write of the transcript *)

(** After a call that has put a move on the board, the file holds the
    record of the stacked moves. *)
Definition transcript_follows (c : command) (st : State) : Prop :=
  let st' := state_of (exec c st) in
  length (move_stack (board st)) < length (move_stack (board st')) →
  last (game_log st') = Some (pgn_text (move_stack (board st'))).

End Program.

Arguments Done {L A} a st.
Arguments Raised {L A} e st.

Notation "x <- c ;; k" := (bind c (λ x, k))
  (at level 100, c at next level, right associativity).
Notation "c ;;; k" := (bind c (λ _, k))
  (at level 100, right associativity).

(** ** A concrete chess library: pawns, knights and king-side castling

    An instance of [ChessLib] on which the program can be run.  It keeps
    the representation of python-chess (squares [0..63] from a1 to h8, a
    move as origin, destination, promotion and drop) and a fragment of the
    rules: pawn advances, knight moves and king-side castling, without
    check detection. *)
Module Fragment.

Inductive PieceType : Type := Pawn | Knight | Bishop | Rook | Queen | King.

Record Piece : Type := mkPiece { piece_type : PieceType; color : bool }.

Record FMove : Type := mkMove {
  from_square : nat;
  to_square : nat;
  promotion : option PieceType;
  drop : option PieceType;
}.

Record FPosition : Type := mkPosition {
  placement : list (option Piece);
  turn : bool;                      (* [true]: White to move *)
  castling_rights : list nat;       (* squares of the rooks that may castle *)
  ep_square : option nat;
  halfmove_clock : nat;
  fullmove_number : nat;
}.

#[global] Instance PieceType_eq_dec : EqDecision PieceType.
Proof. solve_decision. Defined.
#[global] Instance Piece_eq_dec : EqDecision Piece.
Proof. solve_decision. Defined.
#[global] Instance FMove_eq_dec : EqDecision FMove.
Proof. solve_decision. Defined.

Definition square_file (sq : nat) : nat := sq mod 8.
Definition square_rank (sq : nat) : nat := sq / 8.
Definition square (file rank : nat) : nat := rank * 8 + file.

Definition file_name (f : nat) : string := String (ascii_of_nat (97 + f)) "".
Definition rank_name (r : nat) : string := String (ascii_of_nat (49 + r)) "".
Definition square_name (sq : nat) : string :=
  file_name (square_file sq) +:+ rank_name (square_rank sq).

(** [SQUARE_NAMES.index(s)] *)
Definition parse_square (s : string) : option nat :=
  match s with
  | String f (String r "") =>
      let fn := nat_of_ascii f in
      let rn := nat_of_ascii r in
      if ((97 <=? fn) && (fn <=? 104) && (49 <=? rn) && (rn <=? 56))%nat
      then Some (square (fn - 97) (rn - 49))
      else None
  | _ => None
  end.

(** [PIECE_SYMBOLS.index(c)] *)
Definition parse_piece_symbol (c : ascii) : option PieceType :=
  if Ascii.eqb c "p" then Some Pawn
  else if Ascii.eqb c "n" then Some Knight
  else if Ascii.eqb c "b" then Some Bishop
  else if Ascii.eqb c "r" then Some Rook
  else if Ascii.eqb c "q" then Some Queen
  else if Ascii.eqb c "k" then Some King
  else None.

Definition piece_letter (t : PieceType) : string :=
  match t with
  | Pawn => "" | Knight => "N" | Bishop => "B"
  | Rook => "R" | Queen => "Q" | King => "K"
  end.

Definition null_move : FMove := mkMove 0 0 None None.
Definition plain_move (from to : nat) : FMove := mkMove from to None None.

Definition move_bool (m : FMove) : bool :=
  negb (from_square m =? 0)%nat || negb (to_square m =? 0)%nat
  || bool_decide (promotion m ≠ None) || bool_decide (drop m ≠ None).

Definition from_uci (uci : string) : option FMove :=
  if String.eqb uci "0000" then Some null_move
  else
    match uci with
    | String c (String "@" sq) =>
        if (String.length sq =? 2)%nat then
          match parse_piece_symbol (lower c), parse_square sq with
          | Some t, Some s => Some (mkMove s s None (Some t))
          | _, _ => None
          end
        else None
    | _ =>
        let n := String.length uci in
        if ((n =? 4) || (n =? 5))%nat then
          match parse_square (substring 0 2 uci), parse_square (substring 2 2 uci) with
          | Some f, Some t =>
              let finish (promo : option PieceType) :=
                if (f =? t)%nat then None else Some (mkMove f t promo None) in
              match String.get 4 uci with
              | None => finish None
              | Some c =>
                  match parse_piece_symbol c with
                  | Some t' => finish (Some t')
                  | None => None
                  end
              end
          | _, _ => None
          end
        else None
    end.

Definition piece_at (p : FPosition) (sq : nat) : option Piece :=
  mjoin (placement p !! sq).

Definition empty_at (p : FPosition) (sq : nat) : bool :=
  bool_decide (piece_at p sq = None).

Definition own_at (p : FPosition) (sq : nat) : bool :=
  match piece_at p sq with
  | Some pc => Bool.eqb (color pc) (turn p)
  | None => false
  end.

Definition enemy_at (p : FPosition) (sq : nat) : bool :=
  match piece_at p sq with
  | Some pc => negb (Bool.eqb (color pc) (turn p))
  | None => false
  end.

Definition dist (a b : nat) : nat := (a - b) + (b - a).

Definition pawn_advance (p : FPosition) (from to : nat) : bool :=
  if turn p then
    ((to =? from + 8)%nat && empty_at p to && (square_rank to <? 7)%nat)
    || ((square_rank from =? 1)%nat && (to =? from + 16)%nat
        && empty_at p (from + 8) && empty_at p to)
  else
    ((from =? to + 8)%nat && empty_at p to && (0 <? square_rank to)%nat)
    || ((square_rank from =? 6)%nat && (from =? to + 16)%nat
        && empty_at p (to + 8) && empty_at p to).

Definition knight_jump (p : FPosition) (from to : nat) : bool :=
  let df := dist (square_file from) (square_file to) in
  let dr := dist (square_rank from) (square_rank to) in
  (((df =? 1) && (dr =? 2)) || ((df =? 2) && (dr =? 1)))%nat
  && negb (own_at p to).

(** The king's square and the rook's square of the side to move. *)
Definition king_home (p : FPosition) : nat := if turn p then 4 else 60.
Definition rook_home (p : FPosition) : nat := if turn p then 7 else 63.

(** A king move from its home square to the g-file or onto the h-rook. *)
Definition castling_shape (p : FPosition) (from to : nat) : bool :=
  (from =? king_home p)%nat
  && ((to =? king_home p + 2)%nat || (to =? rook_home p)%nat).

Definition may_castle (p : FPosition) : bool :=
  bool_decide (rook_home p ∈ castling_rights p)
  && empty_at p (king_home p + 1) && empty_at p (king_home p + 2)
  && bool_decide (piece_at p (rook_home p) = Some (mkPiece Rook (turn p))).

Definition is_legal (p : FPosition) (m : FMove) : bool :=
  match promotion m, drop m, piece_at p (from_square m) with
  | None, None, Some pc =>
      Bool.eqb (color pc) (turn p)
      && (from_square m <? 64)%nat && (to_square m <? 64)%nat
      && match piece_type pc with
         | Pawn => pawn_advance p (from_square m) (to_square m)
         | Knight => knight_jump p (from_square m) (to_square m)
         | King => castling_shape p (from_square m) (to_square m) && may_castle p
         | _ => false
         end
  | _, _, _ => false
  end.

Definition is_castling (p : FPosition) (m : FMove) : bool :=
  match piece_at p (from_square m) with
  | Some pc =>
      bool_decide (piece_type pc = King)
      && castling_shape p (from_square m) (to_square m)
  | None => false
  end.

Definition apply_move (p : FPosition) (m : FMove) : FPosition :=
  let from := from_square m in
  let to := to_square m in
  let pc := piece_at p from in
  let is_pawn := bool_decide (piece_type <$> pc = Some Pawn) in
  let is_king := bool_decide (piece_type <$> pc = Some King) in
  let placement' :=
    if is_castling p m then
      <[king_home p + 2 := pc]>
        (<[king_home p + 1 := piece_at p (rook_home p)]>
           (<[rook_home p := None]> (<[from := None]> (placement p))))
    else <[to := pc]> (<[from := None]> (placement p)) in
  let lost (sq : nat) : bool :=
    (sq =? from)%nat || (sq =? to)%nat
    || (is_king && ((sq =? king_home p + 3)%nat || (sq =? king_home p - 4)%nat)) in
  {| placement := placement';
     turn := negb (turn p);
     castling_rights := List.filter (λ sq, negb (lost sq)) (castling_rights p);
     ep_square :=
       if is_pawn && (dist from to =? 16)%nat then Some ((from + to) / 2) else None;
     halfmove_clock :=
       if is_pawn || enemy_at p to then 0 else S (halfmove_clock p);
     fullmove_number :=
       if turn p then fullmove_number p else S (fullmove_number p) |}.

(** The other pieces of the same kind and side that may also go to the
    destination, for the disambiguation of the notation. *)
Definition others (p : FPosition) (m : FMove) : list nat :=
  List.filter
    (λ sq, negb (sq =? from_square m)%nat
           && bool_decide (piece_at p sq = piece_at p (from_square m))
           && is_legal p (plain_move sq (to_square m)))
    (seq 0 64).

Definition disambiguation (p : FPosition) (m : FMove) : string :=
  let os := others p m in
  match os with
  | [] => ""
  | _ =>
      let same_rank := existsb (λ sq, square_rank sq =? square_rank (from_square m))%nat os in
      let same_file := existsb (λ sq, square_file sq =? square_file (from_square m))%nat os in
      let row := same_file in
      let column := same_rank || negb same_file in
      (if column then file_name (square_file (from_square m)) else "")
      +:+ (if row then rank_name (square_rank (from_square m)) else "")
  end.

Definition san (p : FPosition) (m : FMove) : option string :=
  if negb (move_bool m) then Some "--"
  else
    match drop m, piece_at p (from_square m) with
    | Some _, _ => None
    | None, None => None
    | None, Some pc =>
        if is_castling p m then Some "O-O"
        else
          let capture := if enemy_at p (to_square m) then "x" else "" in
          match piece_type pc with
          | Pawn =>
              Some ((if enemy_at p (to_square m)
                     then file_name (square_file (from_square m)) else "")
                    +:+ capture +:+ square_name (to_square m))
          | t =>
              Some (piece_letter t +:+ disambiguation p m +:+ capture
                    +:+ square_name (to_square m))
          end
    end.

(** [board.find_move(from, to)]: the legal move between two squares, a
    king move onto its own rook being read as castling. *)
Definition find_move (p : FPosition) (from to : nat) : option FMove :=
  let m :=
    if is_castling p (plain_move from to) && (to =? rook_home p)%nat
    then plain_move from (king_home p + 2)
    else plain_move from to in
  if is_legal p m then Some m else None.

Definition all_moves : list FMove :=
  from ← seq 0 64; to ← seq 0 64; [plain_move from to].

(** The legal moves whose notation is [s]. *)
Definition matches (p : FPosition) (s : string) (m : FMove) : bool :=
  if is_legal p m then
    match san p m with
    | Some s' => String.eqb s' s
    | None => false
    end
  else false.

Definition parse_san (p : FPosition) (s : string) : option FMove :=
  if str_in s ["O-O"; "0-0"] then find_move p (king_home p) (king_home p + 2)
  else
    match List.filter (matches p s) all_moves with
    | [m] => Some m
    | _ :: _ :: _ => None
    | [] =>
        if (String.length s =? 4)%nat then
          match parse_square (substring 0 2 s), parse_square (substring 2 2 s) with
          | Some f, Some t => find_move p f t
          | _, _ => None
          end
        else None
    end.

Definition back_rank (c : bool) : list (option Piece) :=
  (λ t, Some (mkPiece t c)) <$> [Rook; Knight; Bishop; Queen; King; Bishop; Knight; Rook].

Definition starting_position : FPosition :=
  {| placement :=
       back_rank true ++ replicate 8 (Some (mkPiece Pawn true))
       ++ replicate 32 None
       ++ replicate 8 (Some (mkPiece Pawn false)) ++ back_rank false;
     turn := true;
     castling_rights := [0; 7; 56; 63];
     ep_square := None;
     halfmove_clock := 0;
     fullmove_number := 1 |}.

(** The move text of the record, without the tag section. *)
Fixpoint movetext (p : FPosition) (ms : list FMove) : string :=
  match ms with
  | [] => "*"
  | m :: ms' =>
      (if turn p then pretty (fullmove_number p) +:+ ". " else "")
      +:+ default "?" (san p m) +:+ " " +:+ movetext (apply_move p m) ms'
  end.

#[global] Instance lib : ChessLib :=
  Build_ChessLib FPosition FMove starting_position move_bool from_uci
    parse_san is_legal san apply_move
    (λ _, false) (λ _, false) (λ _, false)
    (movetext starting_position).

End Fragment.

(** ** Sample positions and states of the fragment *)
Module Samples.
Import Fragment.

Definition e1 : nat := 4.
Definition g1 : nat := 6.
Definition h1 : nat := 7.
Definition e2 : nat := 12.
Definition e4 : nat := 28.
Definition e5 : nat := 36.
Definition e7 : nat := 52.

(** The start of the session, without an engine and with one. *)
Definition start : State := initial_state false.
Definition start_engine : State := initial_state true.

(** The session after the given strings have gone through [make_move]. *)
Definition after (toks : list string) (st : State) : State :=
  fold_left (λ st tok, state_of (make_move tok st)) toks st.

(** The session after the given commands. *)
Definition after_commands (cs : list command) (st : State) : State :=
  fold_left (λ st c, state_of (exec c st)) cs st.

(** The starting position with the squares f1 and g1 cleared: White may
    castle king-side. *)
Definition castle_ready : FPosition :=
  mkPosition (<[5 := None]> (<[6 := None]> (placement starting_position)))
             true [0; 7; 56; 63] None 0 1.

Definition castle_ready_state : State :=
  set_board (mkBoard castle_ready [] []) start.

(** The engine suggesting move [m], and reporting the line [pv]. *)
Definition suggestion (m : FMove) : play_answer := @PlayResult lib (Some m).
Definition analysis (pv : list FMove) : analyse_answer := @AnalyseInfo lib (Some pv).


End Samples.

(** * The rest of the program: recogniser, window and images *)

(** ** The speech recogniser

<<
def recognize_speech():
    try:
        with sr.Microphone() as src:
            recognizer.adjust_for_ambient_noise(src, duration=0.3)
            audio = recognizer.listen(src, timeout=2, phrase_time_limit=3)
            return recognizer.recognize_google(audio).lower()
    except:
        return None
>>
    [heard] is the transcript the recognition service gives, [None] when
    anything in the [with] block raised. *)
Fixpoint lower_str (s : string) : string :=
  match s with
  | EmptyString => EmptyString
  | String c rest => String (lower c) (lower_str rest)
  end.

Definition recognize_speech (heard : option string) : option string :=
  lower_str <$> heard.

Definition is_lower (c : ascii) : bool :=
  let n := nat_of_ascii c in ((97 <=? n) && (n <=? 122))%nat.
Definition is_upper (c : ascii) : bool :=
  let n := nat_of_ascii c in ((65 <=? n) && (n <=? 90))%nat.

(** The strings for which this model of [str] is exact: every character
    is an ASCII character, so that [len], [upper] and [lower] are as
    defined here. *)
Definition ascii_only (s : string) : bool :=
  forallb (λ c, (nat_of_ascii c <? 128)%nat) (list_ascii_of_string s).

(** The control words of the main loop. *)
Definition control_words : list string := ["undo"; "redo"; "playbestmove"].

(** ** Loops that may raise *)

Definition result_bind {A B : Type} (r : result A) (k : A → result B) : result B :=
  match r with Ok a => k a | Err e => Err e end.

(** [for x in l: out.append(f(x))], stopped by the first exception. *)
Fixpoint result_map {A B : Type} (f : A → result B) (l : list A) : result (list B) :=
  match l with
  | [] => Ok []
  | x :: l' =>
      result_bind (f x) (λ y, result_bind (result_map f l') (λ ys, Ok (y :: ys)))
  end.

(** [l[i]] *)
Definition py_index {A : Type} (l : list A) (i : nat) : result A :=
  match l !! i with Some x => Ok x | None => Err IndexError end.

(** [s[i]], a string of one character *)
Definition str_index (s : string) (i : nat) : result string :=
  match String.get i s with Some c => Ok (String c "") | None => Err IndexError end.

(** [range(0, n, 2)] *)
Definition range_step2 (n : nat) : list nat :=
  (λ k, 2 * k) <$> seq 0 ((n + 1) / 2).

(** [l[-n:]] for a positive [n] *)
Definition last_n {A : Type} (n : nat) (l : list A) : list A :=
  drop (length l - n) l.

(** ** The window *)

Definition SCREEN_WIDTH : nat := 900.
Definition SCREEN_HEIGHT : nat := 600.
Definition SQUARE_SIZE : nat := 75.

Definition rgb : Type := nat * nat * nat.
Definition WHITE : rgb := (245, 245, 220).
Definition BROWN : rgb := (139, 69, 19).
Definition BLACK : rgb := (0, 0, 0).
Definition GREY : rgb := (220, 220, 220).
Definition RED : rgb := (200, 0, 0).

(** What is drawn: [pygame.draw.rect(screen, colour, (x, y, w, h))] and
    [screen.blit(font.render(text, True, colour), (x, y))]. *)
Inductive draw_op : Type :=
| DrawRect (colour : rgb) (x y w h : nat)
| DrawText (text : string) (colour : rgb) (x y : nat).

(** A pixel lies in a drawn rectangle. *)
Definition covers (op : draw_op) (px py : nat) : Prop :=
  match op with
  | DrawRect _ x y w h => x ≤ px < x + w ∧ y ≤ py < y + h
  | DrawText _ _ _ _ => False
  end.

(**
<<
def draw_board():
    for r in range(8):
        for c in range(8):
            color = WHITE if (r + c) % 2 == 0 else BROWN
            pygame.draw.rect(
                screen, color,
                (c * SQUARE_SIZE, r * SQUARE_SIZE, SQUARE_SIZE, SQUARE_SIZE)
            )
>> *)
Definition tile (r c : nat) : draw_op :=
  DrawRect (if ((r + c) mod 2 =? 0)%nat then WHITE else BROWN)
           (c * SQUARE_SIZE) (r * SQUARE_SIZE) SQUARE_SIZE SQUARE_SIZE.

Definition draw_board : list draw_op :=
  r ← seq 0 8; c ← seq 0 8; [tile r c].

(**
<<
def draw_labels():
    files = "abcdefgh"
    for i in range(8):
        screen.blit(small_font.render(files[i], True, BLACK),
                    (i * SQUARE_SIZE + 35, 580))
        screen.blit(small_font.render(str(8 - i), True, BLACK),
                    (5, i * SQUARE_SIZE + 30))
>> *)
Definition files : string := "abcdefgh".

Definition draw_labels : result (list draw_op) :=
  result_bind
    (result_map
       (λ i, result_bind (str_index files i) (λ f,
             Ok [DrawText f BLACK (i * SQUARE_SIZE + 35) 580;
                 DrawText (pretty (8 - i)) BLACK 5 (i * SQUARE_SIZE + 30)]))
       (seq 0 8))
    (λ rows, Ok (concat rows)).

(** ** The score sheet

<<
def draw_score():
    pygame.draw.rect(screen, GREY, (600, 0, 300, 600))
    screen.blit(font.render("Score Sheet", True, BLACK), (680, 10))
    y = 40

    # Group moves into turns
    turns = []
    for i in range(0, len(move_history), 2):
        turn_num = (i // 2) + 1
        white = move_history[i]
        black = move_history[i + 1] if i + 1 < len(move_history) else ""
        turns.append((turn_num, white, black))

    # Show last 25 turns
    for t_num, w, b in turns[-25:]:
        # Turn number and White's move
        screen.blit(font.render(f"{t_num}. {w}", True, BLACK), (610, y))
        # Black's move
        if b:
            screen.blit(font.render(f"{b}", True, BLACK), (720, y))
        y += 20
>> *)
Definition turn : Type := nat * string * string.

Definition turn_at (move_history : list string) (i : nat) : result turn :=
  let turn_num := i / 2 + 1 in
  result_bind (py_index move_history i) (λ white,
  result_bind (if (i + 1 <? length move_history)%nat
               then py_index move_history (i + 1) else Ok "") (λ black,
  Ok (turn_num, white, black))).

Definition group_turns (move_history : list string) : result (list turn) :=
  result_map (turn_at move_history) (range_step2 (length move_history)).

(** The second loop, from height [y] on. *)
Fixpoint score_rows (y : nat) (turns : list turn) : list draw_op :=
  match turns with
  | [] => []
  | (t_num, w, b) :: turns' =>
      DrawText (pretty t_num +:+ ". " +:+ w) BLACK 610 y
      :: (if String.eqb b "" then [] else [DrawText b BLACK 720 y])
      ++ score_rows (y + 20) turns'
  end.

Definition draw_score (move_history : list string) : result (list draw_op) :=
  result_bind (group_turns move_history) (λ turns,
  Ok (DrawRect GREY 600 0 300 600
      :: DrawText "Score Sheet" BLACK 680 10
      :: score_rows 40 (last_n 25 turns))).

(** The turns of a notation list, two moves at a time from number [k]. *)
Fixpoint turns_from (k : nat) (h : list string) : list turn :=
  match h with
  | [] => []
  | [w] => [(k, w, "")]
  | w :: b :: rest => (k, w, b) :: turns_from (S k) rest
  end.

(** The moves of a list of turns, in order. *)
Definition turn_moves (t : turn) : list string :=
  let '(_, w, b) := t in [w; b].

(** The height of the text of a drawn text, the corner of a rectangle. *)
Definition op_y (op : draw_op) : nat :=
  match op with DrawRect _ _ y _ _ => y | DrawText _ _ _ y => y end.
Definition op_x (op : draw_op) : nat :=
  match op with DrawRect _ x _ _ _ => x | DrawText _ _ x _ => x end.
Definition is_text (op : draw_op) : bool :=
  match op with DrawText _ _ _ _ => true | DrawRect _ _ _ _ _ => false end.

(** ** The images of the pieces

<<
PIECES = {
    'P': 'white-pawn.png', 'N': 'white-knight.png', 'B': 'white-bishop.png',
    'R': 'white-rook.png', 'Q': 'white-queen.png', 'K': 'white-king.png',
    'p': 'black-pawn.png', 'n': 'black-knight.png', 'b': 'black-bishop.png',
    'r': 'black-rook.png', 'q': 'black-queen.png', 'k': 'black-king.png'
}

IMAGES = {}

def load_images():
    for k, v in PIECES.items():
        path = os.path.join(ASSETS_DIR, v)
        if os.path.exists(path):
            img = pygame.image.load(path)
            IMAGES[k] = pygame.transform.scale(img, (SQUARE_SIZE, SQUARE_SIZE))
        else:
            print("Missing image:", v)
>>
    [PIECES] is the dictionary in the order of its items.  An image is
    stood for by the name of the file it was loaded from; [file_exists]
    says which files of the assets directory exist, and loading a file
    that exists is taken to succeed. *)
Definition PIECES : list (string * string) :=
  [("P", "white-pawn.png"); ("N", "white-knight.png"); ("B", "white-bishop.png");
   ("R", "white-rook.png"); ("Q", "white-queen.png"); ("K", "white-king.png");
   ("p", "black-pawn.png"); ("n", "black-knight.png"); ("b", "black-bishop.png");
   ("r", "black-rook.png"); ("q", "black-queen.png"); ("k", "black-king.png")].

(** The loop over the items [items], from the dictionary [images] and the
    printed lines [out]. *)
Fixpoint load_items (file_exists : string → bool) (items : list (string * string))
    (images : gmap string string) (out : list string)
  : gmap string string * list string :=
  match items with
  | [] => (images, out)
  | (k, v) :: items' =>
      if file_exists v
      then load_items file_exists items' (<[k := v]> images) out
      else load_items file_exists items' images (out ++ ["Missing image: " +:+ v])
  end.

Definition load_images (file_exists : string → bool)
  : gmap string string * list string :=
  load_items file_exists PIECES ∅ [].

(** ** The pieces on the board

<<
def draw_pieces():
    for sq in chess.SQUARES:
        p = board.piece_at(sq)
        if p and p.symbol() in IMAGES:
            img = IMAGES[p.symbol()]
            x = chess.square_file(sq) * SQUARE_SIZE
            y = (7 - chess.square_rank(sq)) * SQUARE_SIZE
            screen.blit(img, (x, y))
>>
    The library enters through [symbol_at] (the symbol of
    [board.piece_at(sq)], [None] on an empty square), [square_file] and
    [square_rank]; [chess.SQUARES] is the squares [0..63].  Coordinates are
    integers, since [7 - rank] is a subtraction of Python integers. *)
Section Pieces.
Context `{L : ChessLib}.
Variable symbol_at : Position → nat → option string.
Variables square_file square_rank : nat → nat.

Definition draw_pieces (images : gmap string string) (p : Position)
  : list (string * Z * Z) :=
  sq ← seq 0 64;
  match symbol_at p sq with
  | Some sym =>
      match images !! sym with
      | Some img =>
          [(img, (Z.of_nat (square_file sq) * Z.of_nat SQUARE_SIZE)%Z,
                 ((7 - Z.of_nat (square_rank sq)) * Z.of_nat SQUARE_SIZE)%Z)]
      | None => []
      end
  | None => []
  end.

End Pieces.

(** ** The main loop with the recogniser *)
Section Loop.
Context `{L : ChessLib}.

(** One pass of the loop, from what the recognition service gives. *)
Definition main_pass (aa : analyse_answer) (heard : option string)
    (pa : play_answer) : py pyval :=
  main_iteration aa (recognize_speech heard) pa.

(** The passes of the loop in sequence; an exception ends the program. *)
Fixpoint main_passes (inputs : list (analyse_answer * option string * play_answer))
  : py pyval :=
  match inputs with
  | [] => ret PyNone
  | (aa, heard, pa) :: inputs' => main_pass aa heard pa ;;; main_passes inputs'
  end.

End Loop.

(** ** Samples for the window *)
Module WindowSamples.
Import Fragment.

(** [piece.symbol()]: the letter of the piece, a capital for White. *)
Definition symbol_of (pc : Piece) : string :=
  let white :=
    match piece_type pc with
    | Pawn => "P" | Knight => "N" | Bishop => "B"
    | Rook => "R" | Queen => "Q" | King => "K"
    end in
  if color pc then white
  else match white with
       | String c rest => String (lower c) rest
       | EmptyString => EmptyString
       end.

Definition symbol_at (p : FPosition) (sq : nat) : option string :=
  symbol_of <$> piece_at p sq.

(** An assets directory with every image but the black king's. *)
Definition no_black_king (file : string) : bool :=
  negb (String.eqb file "black-king.png").

End WindowSamples.

(** * Properties *)

(** ** Lists as Python uses them *)

Lemma list_pop_snoc {A : Type} (l : list A) (x : A) :
  list_pop (l ++ [x]) = Some (l, x).
Proof.
  induction l as [|y l IH]; simpl; [reflexivity|].
  now rewrite IH.
Qed.

Lemma list_pop_Some {A : Type} (l front : list A) (x : A) :
  list_pop l = Some (front, x) → l = front ++ [x].
Proof.
  revert front. induction l as [|y l IH]; intros front; simpl; [discriminate|].
  destruct (list_pop l) as [[f' z]|] eqn:E.
  - intros [= <- <-]. simpl. f_equal. now apply IH.
  - intros [= <- <-]. destruct l; [reflexivity|]. simpl in E.
    destruct (list_pop l) as [[? ?]|]; discriminate.
Qed.

Lemma list_pop_None {A : Type} (l : list A) : list_pop l = None ↔ l = [].
Proof.
  split; [|now intros ->].
  destruct l as [|y l]; [reflexivity|]. simpl.
  destruct (list_pop l) as [[? ?]|]; discriminate.
Qed.

Lemma list_bool_snoc {A : Type} (l : list A) (x : A) : list_bool (l ++ [x]) = true.
Proof. now destruct l. Qed.

Lemma list_bool_true {A : Type} (l : list A) :
  list_bool l = true → ∃ front x, l = front ++ [x].
Proof.
  intros H. destruct (list_pop l) as [[front x]|] eqn:E.
  - exists front, x. now apply list_pop_Some.
  - apply list_pop_None in E. subst. discriminate.
Qed.


(** ** The command interpreter *)

Lemma remove_spaces_no_space (s : string) :
  remove_spaces s = "" ↔ Forall (λ c, c = " "%char) (list_ascii_of_string s).
Proof.
  induction s as [|c s IH]; simpl.
  - split; [constructor | reflexivity].
  - destruct (Ascii.eqb_spec c " "%char) as [->|Hc].
    + rewrite IH. split; [now constructor | now inversion 1].
    + split; [discriminate | inversion 1; contradiction].
Qed.

(** [parse_command] raises exactly on the non-empty strings made of
    spaces only; on every other string it returns. *)
Lemma parse_command_raises_iff (cmd : string) :
  (∃ e, parse_command cmd = Err e) ↔ cmd ≠ "" ∧ remove_spaces cmd = "".
Proof.
  unfold parse_command.
  destruct (String.eqb_spec cmd "") as [->|Hne].
  - split; [intros [e He]; discriminate | intros [H _]; now destruct H].
  - destruct (remove_spaces cmd) as [|c rest] eqn:E.
    + split; [now intros _ | intros _; now exists IndexError].
    + split; [|intros [_ H]; discriminate].
      intros [e He].
      destruct (str_in (String c rest) _); [discriminate|].
      destruct (String.length (String c rest) =? 2)%nat; discriminate.
Qed.

(** C5 (the code departs from the claim).  A string made of one space is
    not empty, so it passes the guard [if not cmd]; once its space is
    removed nothing is left, and [cmd[0]] raises [IndexError]: the
    interpretation step does not return a failure value there.  The empty
    string itself does return [None]. *)
Theorem parse_command_space_raises :
  parse_command " " = Err IndexError ∧ parse_command "   " = Err IndexError
  ∧ parse_command "" = Ok None.
Proof. repeat split; reflexivity. Qed.

Section Properties.
Context `{L : ChessLib}.

Implicit Types (st : State) (b : Board) (m : Move) (p : Position).

(** ** The board *)

Lemma pop_push b m : pop (push b m) = Some (m, b).
Proof.
  unfold pop, push; simpl. rewrite !list_pop_snoc. destruct b; reflexivity.
Qed.

Lemma pop_Some b m b' :
  pop b = Some (m, b') →
  move_stack b = move_stack b' ++ [m]
  ∧ state_stack b = state_stack b' ++ [position b'].
Proof.
  unfold pop.
  destruct (list_pop (move_stack b)) as [[ms m']|] eqn:E1; [|discriminate].
  destruct (list_pop (state_stack b)) as [[ss p']|] eqn:E2; [|discriminate].
  intros [= <- <-]; simpl.
  apply list_pop_Some in E1, E2. now split.
Qed.

Lemma pop_snoc b ms m ss p :
  move_stack b = ms ++ [m] → state_stack b = ss ++ [p] →
  pop b = Some (m, mkBoard p ms ss).
Proof.
  intros Hm Hs. unfold pop. now rewrite Hm, Hs, !list_pop_snoc.
Qed.

(** ** [make_move] by cases *)

Lemma make_move_settle (move_str : string) st :
  make_move move_str st
  = settle (resolve_move (position (board st)) move_str) move_str st.
Proof.
  unfold make_move, settle, try_except, bind, get; simpl.
  destruct (resolve_move _ _) as [[m|]|e]; simpl; try reflexivity.
  destruct (move_bool m && is_legal _ m); simpl; [|reflexivity].
  destruct (san _ m); reflexivity.
Qed.

Lemma make_move_committed (move_str : string) st m s :
  committed_move (position (board st)) move_str = Some (m, s) →
  make_move move_str st = Done PyNone (commit m s st)
  ∧ move_bool m = true ∧ is_legal (position (board st)) m = true
  ∧ san (position (board st)) m = Some s.
Proof.
  rewrite make_move_settle. unfold committed_move, settle.
  destruct (resolve_move _ _) as [[m'|]|e]; try discriminate.
  destruct (move_ok _ _) eqn:Hok; [|discriminate].
  destruct (san _ m') as [s'|] eqn:Hs; [|discriminate].
  intros [= <- <-]. simpl in Hok. apply andb_prop in Hok as [? ?].
  now rewrite Hs.
Qed.

Lemma make_move_not_committed (move_str : string) st :
  committed_move (position (board st)) move_str = None →
  ∃ line, make_move move_str st = Done PyNone (refused line st).
Proof.
  rewrite make_move_settle. unfold committed_move, settle.
  destruct (resolve_move _ _) as [[m'|]|e]; eauto.
  destruct (move_ok _ _); eauto.
  destruct (san _ m'); [discriminate|eauto].
Qed.

Lemma rejected_not_committed p (move_str : string) :
  rejected p move_str = true → committed_move p move_str = None.
Proof.
  unfold rejected, committed_move.
  destruct (resolve_move _ _) as [[m'|]|e]; try reflexivity.
  now destruct (move_ok _ _).
Qed.

(** ** Sequencing *)

Lemma bind_assoc {A B C : Type} (c : py A) (k : A → py B) (k' : B → py C) st :
  bind (bind c k) k' st = bind c (λ a, bind (k a) k') st.
Proof. unfold bind. now destruct (c st). Qed.

Lemma bind_ext {A B : Type} (c : py A) (k k' : A → py B) st :
  (∀ a st', k a st' = k' a st') → bind c k st = bind c k' st.
Proof. intros H. unfold bind. destruct (c st); [apply H | reflexivity]. Qed.

Lemma bind_Done {A B : Type} (c : py A) (k : A → py B) st a st' :
  c st = Done a st' → bind c k st = k a st'.
Proof. intros H. unfold bind. now rewrite H. Qed.

Lemma times_snoc (n : nat) (c : py pyval) st :
  times (S n) c st = bind (times n c) (λ _, bind c (λ _, ret PyNone)) st.
Proof.
  revert st. induction n as [|n IH]; intros st; [reflexivity|].
  change (times (S (S n)) c) with (bind c (λ _, times (S n) c)).
  rewrite (bind_ext c _ (λ _, bind (times n c) (λ _, bind c (λ _, ret PyNone))))
    by (intros _ st'; apply IH).
  change (times (S n) c) with (bind c (λ _, times n c)).
  now rewrite bind_assoc.
Qed.

(** ** [undo_move] and [redo_move] by cases *)

Lemma undo_move_empty st :
  move_stack (board st) = [] → undo_move st = Done PyNone st.
Proof. intros H. unfold undo_move, bind, get. now rewrite H. Qed.

Lemma undo_move_snoc st ms m ss p h (s : string) :
  move_stack (board st) = ms ++ [m] →
  state_stack (board st) = ss ++ [p] →
  move_history st = h ++ [s] →
  undo_move st = Done PyNone (undone p ms ss h m st).
Proof.
  intros Hm Hs Hh. unfold undo_move, bind, get.
  rewrite Hm, list_bool_snoc. rewrite (pop_snoc _ _ _ _ _ Hm Hs). simpl.
  now rewrite Hh, list_pop_snoc.
Qed.

(** Whatever the state, [undo_move] leaves the redo stack as it is or
    with one more move on it. *)
Lemma undo_move_redo_stack st :
  redo_stack (state_of (undo_move st)) = redo_stack st
  ∨ ∃ m, redo_stack (state_of (undo_move st)) = redo_stack st ++ [m].
Proof.
  unfold undo_move, bind, get.
  destruct (list_bool _); [|now left].
  destruct (pop (board st)) as [[m b']|]; simpl; [|now left].
  right. exists m. now destruct (list_pop (move_history st)) as [[? ?]|].
Qed.

Lemma redo_move_empty st :
  redo_stack st = [] → redo_move st = Done PyNone st.
Proof. intros H. unfold redo_move, bind, get. now rewrite H. Qed.

Lemma redo_move_snoc st r m (s : string) :
  redo_stack st = r ++ [m] →
  san (position (board st)) m = Some s →
  redo_move st = Done PyNone (redone r m s st).
Proof.
  intros Hr Hs. unfold redo_move, bind, get.
  rewrite Hr, list_bool_snoc, list_pop_snoc. simpl. now rewrite Hs.
Qed.

Lemma redo_move_snoc_raises st r m :
  redo_stack st = r ++ [m] →
  san (position (board st)) m = None →
  redo_move st = Raised AssertionError (set_redo_stack r st).
Proof.
  intros Hr Hs. unfold redo_move, bind, get.
  rewrite Hr, list_bool_snoc, list_pop_snoc. simpl. now rewrite Hs.
Qed.

Lemma redo_stack_cases st :
  redo_stack st = [] ∨ ∃ r m, redo_stack st = r ++ [m].
Proof.
  destruct (list_bool (redo_stack st)) eqn:E.
  - right. now apply list_bool_true.
  - left. now destruct (redo_stack st).
Qed.

Lemma move_stack_cases b :
  move_stack b = [] ∨ ∃ ms m, move_stack b = ms ++ [m].
Proof.
  destruct (list_bool (move_stack b)) eqn:E.
  - right. now apply list_bool_true.
  - left. now destruct (move_stack b).
Qed.

Lemma length_snoc_inv {A : Type} (l : list A) (n : nat) :
  length l = S n → ∃ front x, l = front ++ [x].
Proof. intros H. apply list_bool_true. now destruct l. Qed.

(** ** Boards built by legal moves *)

Lemma played_lengths b h :
  played b h →
  length h = length (move_stack b)
  ∧ length (state_stack b) = length (move_stack b).
Proof.
  induction 1 as [p|b h m s _ [IH1 IH2] _ _]; simpl; [now split|].
  rewrite !length_app. simpl. lia.
Qed.

Lemma played_last b h :
  played b h → move_stack b ≠ [] →
  ∃ b0 h0 m s, b = push b0 m ∧ h = h0 ++ [s] ∧ played b0 h0
    ∧ is_legal (position b0) m = true ∧ san (position b0) m = Some s.
Proof.
  intros [p|b0 h0 m s Hp Hl Hs] Hne; [now destruct Hne|].
  now exists b0, h0, m, s.
Qed.

Lemma board_eta b : mkBoard (position b) (move_stack b) (state_stack b) = b.
Proof. now destruct b. Qed.

(** Taking back the last move and playing it again gives the same state. *)
Lemma undo_then_redo st :
  played (board st) (move_history st) →
  move_stack (board st) ≠ [] →
  ∃ st1, undo_move st = Done PyNone st1
    ∧ redo_move st1 = Done PyNone st
    ∧ played (board st1) (move_history st1)
    ∧ S (length (move_stack (board st1))) = length (move_stack (board st)).
Proof.
  intros Hp Hne.
  destruct (played_last _ _ Hp Hne) as (b0 & h0 & m & s & Hb & Hh & Hp0 & Hl & Hs).
  exists (undone (position b0) (move_stack b0) (state_stack b0) h0 m st).
  split; [|split; [|split]].
  - apply (undo_move_snoc _ _ _ _ _ _ s); [now rewrite Hb..|exact Hh].
  - rewrite (redo_move_snoc _ (redo_stack st) m s); [|reflexivity|exact Hs].
    unfold redone; simpl. rewrite board_eta, <- Hb, <- Hh. now destruct st.
  - simpl. now rewrite board_eta.
  - simpl. rewrite Hb. simpl. rewrite length_app. simpl. lia.
Qed.

Lemma undo_redo_round (n : nat) : ∀ st,
  played (board st) (move_history st) →
  (n ≤ length (move_stack (board st)))%nat →
  (times n undo_move ;;; times n redo_move) st = Done PyNone st.
Proof.
  induction n as [|n IH]; intros st Hp Hn; [reflexivity|].
  destruct (undo_then_redo st Hp) as (st1 & Hu & Hr & Hp1 & Hlen).
  { intros E. rewrite E in Hn. simpl in Hn. lia. }
  change (times (S n) undo_move) with (bind undo_move (λ _, times n undo_move)).
  rewrite bind_assoc, (bind_Done _ _ _ _ _ Hu).
  rewrite (bind_ext _ _ (λ _, bind (times n redo_move)
                                 (λ _, bind redo_move (λ _, ret PyNone))))
    by (intros _ st'; apply times_snoc).
  rewrite <- bind_assoc.
  rewrite (bind_Done _ _ _ _ _ (IH st1 Hp1 ltac:(lia))).
  now rewrite (bind_Done _ _ _ _ _ Hr).
Qed.

Lemma play_moves_played (toks : list string) : ∀ st st',
  played (board st) (move_history st) →
  play_moves toks st = Some st' →
  played (board st') (move_history st')
  ∧ length (move_stack (board st'))
    = length (move_stack (board st)) + length toks.
Proof.
  induction toks as [|tok toks IH]; intros st st' Hp; simpl.
  - intros [= <-]. split; [exact Hp | lia].
  - destruct (committed_move _ tok) as [[m s]|] eqn:E; [|discriminate].
    destruct (make_move_committed _ _ _ _ E) as (Hmk & _ & Hl & Hs).
    rewrite Hmk. simpl. intros H.
    apply IH in H as [H1 H2].
    + split; [exact H1|]. rewrite H2. simpl. rewrite length_app. simpl. lia.
    + simpl. now constructor.
Qed.

(** C1.  After any sequence of legal moves applied from the initial
    position, [n] calls of [undo_move] followed by [n] calls of
    [redo_move], [n] being at most the number of moves applied, return
    and leave the state exactly as it was before the first undo: the
    board with its position (placement, castling rights, en-passant
    square, clocks, side to move) and its stacks, the notation list, the
    redo stack and the transcript. *)
Theorem undo_redo_roundtrip (has_engine : bool) (toks : list string) (n : nat) st :
  play_moves toks (initial_state has_engine) = Some st →
  (n ≤ length toks)%nat →
  (times n undo_move ;;; times n redo_move) st = Done PyNone st.
Proof.
  intros Hplay Hn.
  destruct (play_moves_played toks (initial_state has_engine) st) as [Hp Hlen];
    [constructor | exact Hplay |].
  apply undo_redo_round; [exact Hp|]. rewrite Hlen. simpl. lia.
Qed.

(** ** [make_move], [play_best] and [draw_status] by cases *)

Lemma make_move_cases (move_str : string) st :
  (∃ m s, committed_move (position (board st)) move_str = Some (m, s)
          ∧ is_legal (position (board st)) m = true
          ∧ san (position (board st)) m = Some s
          ∧ make_move move_str st = Done PyNone (commit m s st))
  ∨ (committed_move (position (board st)) move_str = None
     ∧ ∃ line, make_move move_str st = Done PyNone (refused line st)).
Proof.
  destruct (committed_move (position (board st)) move_str) as [[m s]|] eqn:E.
  - left. exists m, s.
    destruct (make_move_committed _ _ _ _ E) as (? & ? & ? & ?). now repeat split.
  - right. split; [reflexivity|]. now apply make_move_not_committed.
Qed.

Lemma play_best_cases (a : play_answer) st :
  play_best a st = Done PyNone st
  ∨ (∃ e, play_best a st = Raised e st)
  ∨ (∃ m s, a = PlayResult (Some m) ∧ engine st = true
            ∧ san (position (board st)) m = Some s
            ∧ play_best a st = make_move s st).
Proof.
  unfold play_best, bind, get.
  destruct (engine st) eqn:He; [|now left].
  destruct a as [|[m|]]; simpl; [right; left; eauto..| |right; left; eauto].
  destruct (san (position (board st)) m) as [s|] eqn:Hs; simpl.
  - right; right. now exists m, s.
  - right; left; eauto.
Qed.

Lemma set_screen_id st : set_screen (screen st) st = st.
Proof. now destruct st. Qed.

(** [draw_status] returns, and changes nothing but the screen. *)
Lemma draw_status_screen_only (aa : analyse_answer) st :
  ∃ scr, draw_status aa st = Done PyNone (set_screen scr st).
Proof.
  unfold draw_status, bind, get, blit, modify, try_except.
  assert (Hid : ∀ v : pyval, ∃ scr, Done v st = Done v (set_screen scr st))
    by (intros v; exists (screen st); now rewrite set_screen_id).
  destruct (engine st) eqn:He.
  - destruct (is_checkmate _); [|destruct (is_check _); [|destruct (is_stalemate _)]];
      simpl; rewrite ?He; simpl;
      (destruct aa as [|[pv|]]; simpl; [eauto..| |eauto]);
      (destruct (head pv) as [m|]; simpl; [|eauto]);
      (destruct (san _ m); simpl; eauto).
  - destruct (is_checkmate _); [|destruct (is_check _); [|destruct (is_stalemate _)]];
      simpl; rewrite ?He; simpl; eauto.
Qed.


(** ** The notation list follows the board *)

Lemma notation_inv_same st st' :
  board st' = board st → move_history st' = move_history st →
  notation_inv st → notation_inv st'.
Proof. unfold notation_inv. now intros -> ->. Qed.

Lemma notation_inv_push st st' m (s : string) :
  notation_inv st →
  san (position (board st)) m = Some s →
  board st' = push (board st) m →
  move_history st' = move_history st ++ [s] →
  notation_inv st'.
Proof.
  intros (H1 & H2 & H3) Hs Hb Hh. unfold notation_inv.
  rewrite Hb, Hh. simpl. rewrite !length_app. simpl.
  split; [lia|]. split; [lia|].
  intros i p' m' s'.
  rewrite !lookup_snoc_Some.
  intros [[? ?]|[? ?]] [[? ?]|[? ?]] [[? ?]|[? ?]]; try lia.
  - eauto.
  - now subst.
Qed.

Lemma notation_inv_pop st st' ms m ss p h (s : string) :
  notation_inv st →
  move_stack (board st) = ms ++ [m] →
  state_stack (board st) = ss ++ [p] →
  move_history st = h ++ [s] →
  board st' = mkBoard p ms ss →
  move_history st' = h →
  notation_inv st'.
Proof.
  intros (H1 & H2 & H3) Hm Hs Hh Hb Hh'. unfold notation_inv.
  rewrite Hm, Hs, Hh in *. rewrite Hb, Hh'. simpl.
  rewrite !length_app in H1, H2. simpl in H1, H2.
  split; [lia|]. split; [lia|].
  intros i p' m' s' Hp' Hm' Hs'.
  apply (H3 i); now apply lookup_app_l_Some.
Qed.

Lemma notation_inv_make_move (move_str : string) st :
  notation_inv st → notation_inv (state_of (make_move move_str st)).
Proof.
  intros Hinv.
  destruct (make_move_cases move_str st)
    as [(m & s & _ & _ & Hs & ->)|(_ & line & ->)]; simpl.
  - now apply (notation_inv_push st _ m s).
  - now apply (notation_inv_same st).
Qed.

Lemma notation_inv_undo st :
  notation_inv st → notation_inv (state_of (undo_move st)).
Proof.
  intros Hinv. destruct (move_stack_cases (board st)) as [E|(ms & m & E)].
  - now rewrite undo_move_empty.
  - destruct Hinv as (H1 & H2 & H3).
    rewrite E, length_app in H1, H2. simpl in H1, H2.
    destruct (length_snoc_inv (state_stack (board st)) (length ms))
      as (ss & p & Es); [lia|].
    destruct (length_snoc_inv (move_history st) (length ms))
      as (h & s & Eh); [lia|].
    rewrite (undo_move_snoc _ _ _ _ _ _ _ E Es Eh). simpl.
    apply (notation_inv_pop st _ ms m ss p h s); try done.
    unfold notation_inv. rewrite E, length_app. simpl. repeat split; try lia.
    now rewrite <- E.
Qed.

Lemma notation_inv_redo st :
  notation_inv st → notation_inv (state_of (redo_move st)).
Proof.
  intros Hinv. destruct (redo_stack_cases st) as [E|(r & m & E)].
  - now rewrite redo_move_empty.
  - destruct (san (position (board st)) m) as [s|] eqn:Hs.
    + rewrite (redo_move_snoc _ _ _ _ E Hs). simpl.
      now apply (notation_inv_push st _ m s).
    + rewrite (redo_move_snoc_raises _ _ _ E Hs). simpl.
      now apply (notation_inv_same st).
Qed.

Lemma notation_inv_play_best (a : play_answer) st :
  notation_inv st → notation_inv (state_of (play_best a st)).
Proof.
  intros Hinv.
  destruct (play_best_cases a st) as [->|[[e ->]|(m & s & _ & _ & _ & ->)]];
    try exact Hinv.
  now apply notation_inv_make_move.
Qed.

(** C10.  Each operation on the session (a move through [make_move],
    [undo_move], [redo_move], and [play_best], which goes through
    [make_move]) keeps the notation list and the move stack of the board
    of equal length, the [i]-th notation being the algebraic notation of
    the [i]-th stacked move in the position it was played in; this holds
    of the state the operation leaves whether it returns or raises. *)
Theorem notation_follows_board (c : command) st :
  notation_inv st → notation_inv (state_of (exec c st)).
Proof.
  intros Hinv. destruct c as [| |a|move_str]; simpl.
  - now apply notation_inv_undo.
  - now apply notation_inv_redo.
  - now apply notation_inv_play_best.
  - now apply notation_inv_make_move.
Qed.

(** ** The states the session reaches *)

Lemma redo_ok_last p (r : list Move) m :
  redo_ok p (r ++ [m]) →
  is_legal p m = true ∧ (∃ s, san p m = Some s) ∧ redo_ok (apply_move p m) r.
Proof.
  intros H. remember (r ++ [m]) as l eqn:E.
  destruct H as [p|p r' m' s Hl Hs Hr].
  - now destruct r.
  - apply app_inj_tail in E as [-> ->]. eauto.
Qed.

Lemma session_inv_make_move (move_str : string) st :
  session_inv st → session_inv (state_of (make_move move_str st)).
Proof.
  intros [Hp Hr].
  destruct (make_move_cases move_str st)
    as [(m & s & _ & Hl & Hs & ->)|(_ & line & ->)]; simpl.
  - split; simpl; [now constructor | constructor].
  - now split.
Qed.

Lemma session_inv_undo st :
  session_inv st → session_inv (state_of (undo_move st)).
Proof.
  intros [Hp Hr]. destruct (move_stack_cases (board st)) as [E|(ms & m & E)].
  - now rewrite undo_move_empty.
  - destruct (played_last _ _ Hp) as (b0 & h0 & m0 & s & Hb & Hh & Hp0 & Hl & Hs).
    { rewrite E. now destruct ms. }
    rewrite (undo_move_snoc st (move_stack b0) m0 (state_stack b0) (position b0) h0 s);
      [|now rewrite Hb..|exact Hh].
    split; simpl.
    + now rewrite board_eta.
    + apply (redo_ok_snoc _ _ _ s); [exact Hl|exact Hs|].
      now rewrite Hb in Hr.
Qed.

Lemma session_inv_redo st :
  session_inv st → session_inv (state_of (redo_move st)).
Proof.
  intros [Hp Hr]. destruct (redo_stack_cases st) as [E|(r & m & E)].
  - now rewrite redo_move_empty.
  - rewrite E in Hr. apply redo_ok_last in Hr as (Hl & [s Hs] & Hr).
    rewrite (redo_move_snoc _ _ _ _ E Hs). split; simpl; [now constructor|exact Hr].
Qed.

Lemma session_inv_exec (c : command) st :
  session_inv st → session_inv (state_of (exec c st)).
Proof.
  intros Hinv. destruct c as [| |a|move_str]; simpl.
  - now apply session_inv_undo.
  - now apply session_inv_redo.
  - destruct (play_best_cases a st) as [->|[[e ->]|(m & s & _ & _ & _ & ->)]];
      try exact Hinv.
    now apply session_inv_make_move.
  - now apply session_inv_make_move.
Qed.

Lemma reachable_session_inv st : reachable st → session_inv st.
Proof.
  induction 1 as [e|st c v st' _ IH Hex|st aa v st' _ IH Hdraw].
  - split; constructor.
  - apply (session_inv_exec c) in IH. now rewrite Hex in IH.
  - destruct (draw_status_screen_only aa st) as [scr Hd].
    rewrite Hd in Hdraw. injection Hdraw as _ <-. exact IH.
Qed.

(** C6.  In every state the session reaches from the initial one,
    [redo_move] called with a non-empty redo stack plays again a move that
    is legal in the current position: the move it pops passes the check
    against the legal moves, and the call does exactly what a redo that
    makes this check before playing the move does.  (The code has no test
    of its own; that the popped move is legal is kept by the program: only
    an undo puts a move on the redo stack, and a committed move empties
    it.) *)
Theorem redo_revalidates st :
  reachable st →
  redo_move st = redo_move_validating st
  ∧ ∀ r m, redo_stack st = r ++ [m] →
      is_legal (position (board st)) m = true
      ∧ ∃ s, san (position (board st)) m = Some s
             ∧ redo_move st = Done PyNone (redone r m s st).
Proof.
  intros Hreach. apply reachable_session_inv in Hreach as [_ Hr].
  split.
  - destruct (redo_stack_cases st) as [E|(r & m & E)].
    + rewrite (redo_move_empty _ E).
      unfold redo_move_validating, bind, get. now rewrite E.
    + rewrite E in Hr. apply redo_ok_last in Hr as (Hl & [s Hs] & _).
      rewrite (redo_move_snoc _ _ _ _ E Hs).
      unfold redo_move_validating, bind, get.
      rewrite E, list_bool_snoc, list_pop_snoc. simpl. now rewrite Hl, Hs.
  - intros r m E. rewrite E in Hr.
    apply redo_ok_last in Hr as (Hl & [s Hs] & _).
    split; [exact Hl|]. exists s. split; [exact Hs|]. now apply redo_move_snoc.
Qed.

(** ** The redo stack *)

Lemma exec_redo_stack (c : command) st :
  let r := redo_stack st in
  let r' := redo_stack (state_of (exec c st)) in
  r' = r
  ∨ (c = Undo ∧ ∃ m, r' = r ++ [m])
  ∨ (c = Redo ∧ ∃ m, r = r' ++ [m])
  ∨ (r' = [] ∧ ∃ tok, is_Some (committed_move (position (board st)) tok)
                      ∧ exec c st = make_move tok st).
Proof.
  assert (Hmk : ∀ tok,
    redo_stack (state_of (make_move tok st)) = redo_stack st
    ∨ (redo_stack (state_of (make_move tok st)) = []
       ∧ is_Some (committed_move (position (board st)) tok))).
  { intros tok. destruct (make_move_cases tok st)
      as [(m & s & E & _ & _ & ->)|(_ & line & ->)]; [right|now left].
    split; [reflexivity|]. now rewrite E. }
  destruct c as [| |a|move_str]; simpl.
  - destruct (undo_move_redo_stack st) as [H|H]; [now left|right; left; eauto].
  - destruct (redo_stack_cases st) as [E|(r & m & E)].
    + left. now rewrite redo_move_empty.
    + right; right; left. split; [reflexivity|]. exists m.
      destruct (san (position (board st)) m) as [s|] eqn:Hs.
      * now rewrite (redo_move_snoc _ _ _ _ E Hs).
      * now rewrite (redo_move_snoc_raises _ _ _ E Hs).
  - destruct (play_best_cases a st) as [->|[[e ->]|(m & s & _ & _ & _ & Hpb)]];
      [now left..|].
    rewrite Hpb. destruct (Hmk s) as [H|[H1 H2]]; [now left|].
    right; right; right. split; [exact H1|]. now exists s.
  - destruct (Hmk move_str) as [H|[H1 H2]]; [now left|].
    right; right; right. split; [exact H1|]. now exists move_str.
Qed.

Lemma exec_keeps_redo_empty (c : command) st :
  c ≠ Undo → redo_stack st = [] → redo_stack (state_of (exec c st)) = [].
Proof.
  intros Hc E.
  destruct (exec_redo_stack c st) as [H|[[-> _]|[[_ [m H]]|[H _]]]]; simpl in *.
  - now rewrite H.
  - now destruct Hc.
  - rewrite E in H. now destruct (redo_stack (state_of (exec c st))).
  - exact H.
Qed.

Lemma run_keeps_redo_empty (cs : list command) : ∀ st,
  Forall (λ c, c ≠ Undo) cs → redo_stack st = [] →
  redo_stack (state_of (run cs st)) = [].
Proof.
  induction cs as [|c cs IH]; intros st Hcs E; [exact E|].
  inversion Hcs as [|? ? Hc Hcs']; subst.
  pose proof (exec_keeps_redo_empty c st Hc E) as H.
  simpl. unfold bind. destruct (exec c st) as [v st'|e st']; simpl in *.
  - now apply IH.
  - exact H.
Qed.

(** C4.  A move committed by [make_move] empties the redo stack, so
    that [redo_move] then does nothing, and goes on doing nothing after
    any further commands among which there is no undo.  No other
    operation empties the redo stack: each command leaves it as it is,
    or is an undo that adds one move, or a redo that removes the last
    one, or is a call of [make_move] that commits (directly or from
    [play_best]). *)
Theorem redo_cleared_by_commit_only st (move_str : string) m (s : string)
    (cs : list command) :
  committed_move (position (board st)) move_str = Some (m, s) →
  Forall (λ c, c ≠ Undo) cs →
  let st1 := state_of (make_move move_str st) in
  let st2 := state_of (run cs st1) in
  redo_stack st1 = [] ∧ redo_move st1 = Done PyNone st1
  ∧ redo_stack st2 = [] ∧ redo_move st2 = Done PyNone st2
  ∧ ∀ st' c,
      let r := redo_stack st' in
      let r' := redo_stack (state_of (exec c st')) in
      r' = r
      ∨ (c = Undo ∧ ∃ m', r' = r ++ [m'])
      ∨ (c = Redo ∧ ∃ m', r = r' ++ [m'])
      ∨ (r' = [] ∧ ∃ tok, is_Some (committed_move (position (board st')) tok)
                          ∧ exec c st' = make_move tok st').
Proof.
  intros Hc Hcs st1 st2.
  assert (E1 : redo_stack st1 = []).
  { unfold st1. destruct (make_move_committed _ _ _ _ Hc) as [-> _]. reflexivity. }
  assert (E2 : redo_stack st2 = []) by now apply run_keeps_redo_empty.
  repeat split; try assumption.
  - now apply redo_move_empty.
  - now apply redo_move_empty.
  - intros st' c. apply exec_redo_stack.
Qed.

(** ** The advisor *)


(** ** Rejected commands *)

(** C3.  When [make_move] is given a string that is rejected, notation
    that does not parse or a move outside the legal moves of the position,
    it returns after printing one line and leaves the board, the notation
    list, the redo stack and the transcript as they were; given the same
    string again it prints the same line and again changes none of them. *)
Theorem rejected_command_changes_nothing st (move_str : string) :
  rejected (position (board st)) move_str = true →
  let st1 := state_of (make_move move_str st) in
  let st2 := state_of (make_move move_str st1) in
  session st1 = session st ∧ session st2 = session st
  ∧ ∃ line, make_move move_str st = Done PyNone (refused line st)
            ∧ make_move move_str st1 = Done PyNone (refused line st1).
Proof.
  intros Hrej st1 st2. subst st1 st2.
  assert (Hline : ∃ line, ∀ st',
            position (board st') = position (board st) →
            make_move move_str st' = Done PyNone (refused line st')).
  { unfold rejected in Hrej.
    destruct (resolve_move (position (board st)) move_str) as [[m|]|e] eqn:E.
    - exists ("Illegal move: " +:+ move_str). intros st' Hp.
      rewrite make_move_settle, Hp, E. unfold settle. rewrite Hp.
      apply negb_true_iff in Hrej. now rewrite Hrej.
    - exists ("Illegal move: " +:+ move_str). intros st' Hp.
      now rewrite make_move_settle, Hp, E.
    - exists ("Move error: " +:+ exn_name e). intros st' Hp.
      now rewrite make_move_settle, Hp, E. }
  destruct Hline as [line Hline].
  rewrite (Hline st eq_refl). simpl.
  rewrite (Hline (refused line st) eq_refl). simpl.
  repeat split. now exists line.
Qed.

(** ** The reading order of the notation *)

(** C2 (as the code has it).  [make_move] always takes the algebraic
    reading first: when [parse_san] yields a move, that move is the one
    settled, whatever the length of the string.  The coordinate reading is
    used only when the algebraic reading has failed and the string has
    exactly four characters, of whatever kind.  A string of any other
    length has the algebraic reading only. *)
Theorem algebraic_reading_first st (move_str : string) :
  let p := position (board st) in
  (∀ m, parse_san p move_str = Some m →
        make_move move_str st = settle (Ok (Some m)) move_str st)
  ∧ (parse_san p move_str = None → String.length move_str = 4%nat →
     make_move move_str st
     = settle (match from_uci move_str with
               | Some m => Ok (Some m)
               | None => Err InvalidMoveError
               end) move_str st)
  ∧ (String.length move_str ≠ 4%nat →
     make_move move_str st = settle (algebraic_only p move_str) move_str st).
Proof.
  intros p. rewrite make_move_settle. fold p. unfold resolve_move, algebraic_only.
  repeat split.
  - now intros m ->.
  - intros -> ->. reflexivity.
  - intros Hlen. destruct (parse_san p move_str); [reflexivity|].
    apply Nat.eqb_neq in Hlen. now rewrite Hlen.
Qed.

(** ** The result of [undo_move] *)

(** C9 (as the code has it).  [undo_move] returns [None], never a
    boolean.  On a state whose three stacks have the same length: when no
    move is stacked the call returns and changes nothing; otherwise it
    returns after restoring the position saved before the last move,
    removing that move from the board, pushing it on the redo stack and
    removing the last notation. *)
Theorem undo_move_returns_none st :
  length (move_history st) = length (move_stack (board st)) →
  length (state_stack (board st)) = length (move_stack (board st)) →
  (move_stack (board st) = [] → undo_move st = Done PyNone st)
  ∧ (∀ ms m, move_stack (board st) = ms ++ [m] →
       ∃ ss p h s,
         state_stack (board st) = ss ++ [p]
         ∧ move_history st = h ++ [s]
         ∧ undo_move st = Done PyNone (undone p ms ss h m st)).
Proof.
  intros H1 H2. split; [apply undo_move_empty|].
  intros ms m E. rewrite E, length_app in H1, H2. simpl in H1, H2.
  destruct (length_snoc_inv (state_stack (board st)) (length ms))
    as (ss & p & Es); [lia|].
  destruct (length_snoc_inv (move_history st) (length ms))
    as (h & s & Eh); [lia|].
  exists ss, p, h, s. repeat split; try assumption.
  now apply (undo_move_snoc _ _ _ _ _ _ s).
Qed.

(** ** The transcript *)

(** A move committed by [make_move] is followed by a write of the record
    of all the stacked moves. *)
Lemma make_move_writes_transcript (move_str : string) st :
  transcript_follows (MoveCmd move_str) st.
Proof.
  unfold transcript_follows; simpl.
  destruct (make_move_cases move_str st)
    as [(m & s & _ & _ & _ & ->)|(_ & line & ->)]; simpl.
  - intros _. apply last_snoc.
  - lia.
Qed.

(** [redo_move] never writes the transcript. *)
Lemma redo_move_game_log st :
  game_log (state_of (redo_move st)) = game_log st.
Proof.
  destruct (redo_stack_cases st) as [E|(r & m & E)].
  - now rewrite redo_move_empty.
  - destruct (san (position (board st)) m) as [s|] eqn:Hs.
    + now rewrite (redo_move_snoc _ _ _ _ E Hs).
    + now rewrite (redo_move_snoc_raises _ _ _ E Hs).
Qed.

End Properties.

(** * The program on the fragment: concrete runs *)

Section Runs.
Import Fragment Samples.

(** Split a conjunction into its parts, without touching the parts. *)
Local Ltac conjs := repeat match goal with |- _ ∧ _ => split end.

(** An equation between closed terms, settled by evaluating both sides.
    The type of the equation is left alone: it may mention the library
    instance, whose functions are not to be unfolded. *)
Local Ltac run_eq :=
  lazymatch goal with
  | |- ?a = ?b =>
      let a' := eval vm_compute in a in
      let b' := eval vm_compute in b in
      first [constr_eq a' b' | unify a' b' | fail 1 "the two sides differ"];
      vm_cast_no_check (@eq_refl _ a')
  end.

Local Abbreviation tokens3 := ["e4"; "e5"; "Nf3"] (only parsing).

(** After 1. e4 e5 2. Nf3, two undos and two redos give the same state. *)
Lemma undo_redo_roundtrip_witness :
  play_moves tokens3 (initial_state false) = Some (after tokens3 start)
  ∧ (times 2 undo_move ;;; times 2 redo_move) (after tokens3 start)
    = Done PyNone (after tokens3 start).
Proof.
  split; [run_eq|].
  apply (undo_redo_roundtrip false tokens3 2); [run_eq | simpl; lia].
Defined.

(** The coordinate reading does not come first.  With White ready to
    castle, the four characters [e1h1] read as a coordinate move name the
    king going to h1; [make_move] resolves them by the algebraic reading,
    to the king going to g1, and that is the move it puts on the board.
    Nor is a string that is not a coordinate token read as algebraic
    notation only: [P@e4] has four characters, fails the algebraic
    reading, and is resolved by [from_uci]. *)
Lemma coordinate_reading_not_first :
  coordinate_token "e1h1" = true
  ∧ from_uci "e1h1" = Some (plain_move e1 h1)
  ∧ resolve_move castle_ready "e1h1" = Ok (Some (plain_move e1 g1))
  ∧ move_stack (board (state_of (make_move "e1h1" castle_ready_state)))
    = [plain_move e1 g1]
  ∧ ¬ coordinate_first
  ∧ coordinate_token "P@e4" = false
  ∧ resolve_move starting_position "P@e4"
    = Ok (Some (mkMove e4 e4 None (Some Pawn)))
  ∧ ¬ algebraic_otherwise.
Proof.
  conjs.
  - reflexivity.
  - reflexivity.
  - run_eq.
  - run_eq.
  - intros H.
    specialize (H castle_ready "e1h1" (plain_move e1 h1) eq_refl eq_refl).
    vm_compute in H. discriminate.
  - reflexivity.
  - run_eq.
  - intros H. specialize (H starting_position "P@e4" eq_refl).
    vm_compute in H. discriminate.
Qed.

Lemma algebraic_reading_first_witness :
  parse_san castle_ready "e1h1" = Some (plain_move e1 g1)
  ∧ make_move "e1h1" castle_ready_state
    = settle (Ok (Some (plain_move e1 g1))) "e1h1" castle_ready_state
  ∧ parse_san starting_position "P@e4" = None
  ∧ make_move "P@e4" start
    = settle (Ok (Some (mkMove e4 e4 None (Some Pawn)))) "P@e4" start
  ∧ make_move "e4" start = settle (algebraic_only starting_position "e4") "e4" start.
Proof.
  destruct (algebraic_reading_first castle_ready_state "e1h1") as (H1 & _ & _).
  destruct (algebraic_reading_first start "P@e4") as (_ & H2 & _).
  destruct (algebraic_reading_first start "e4") as (_ & _ & H3).
  conjs.
  - run_eq.
  - apply H1. run_eq.
  - run_eq.
  - apply H2; [run_eq | reflexivity].
  - apply H3. simpl. lia.
Defined.

(** [Ke2] at the start is rejected and changes nothing. *)
Lemma rejected_command_witness :
  rejected (position (board start)) "Ke2" = true
  ∧ session (state_of (make_move "Ke2" start)) = session start
  ∧ session (state_of (make_move "Ke2" (state_of (make_move "Ke2" start))))
    = session start.
Proof.
  assert (H : rejected (position (board start)) "Ke2" = true) by run_eq.
  destruct (rejected_command_changes_nothing start "Ke2" H) as (H1 & H2 & _).
  exact (conj H (conj H1 H2)).
Defined.

(** After 1. e4 e5 and one undo the redo stack holds e5; the new move
    1... c5 empties it. *)
Lemma redo_cleared_by_commit_witness :
  let st := after_commands [MoveCmd "e4"; MoveCmd "e5"; Undo] start in
  let st1 := state_of (make_move "c5" st) in
  redo_stack st = [plain_move e7 e5]
  ∧ committed_move (position (board st)) "c5" = Some (plain_move 50 34, "c5")
  ∧ redo_stack st1 = []
  ∧ redo_move st1 = Done PyNone st1
  ∧ redo_stack (state_of (run [Redo; MoveCmd "Nf3"; Redo] st1)) = [].
Proof.
  intros st st1.
  assert (H : committed_move (position (board st)) "c5"
              = Some (plain_move 50 34, "c5")) by run_eq.
  assert (Hcs : Forall (λ c : command, c ≠ Undo) [Redo; MoveCmd "Nf3"; Redo])
    by (repeat constructor; discriminate).
  destruct (redo_cleared_by_commit_only st "c5" _ _ _ H Hcs)
    as (H1 & H2 & H3 & _).
  conjs; try assumption. run_eq.
Defined.

(** After 1. e4 and one undo, [redo_move] plays e4 again, which is legal at
    the start, and does what the validating redo does. *)
Lemma redo_revalidates_witness :
  let st := after_commands [MoveCmd "e4"; Undo] start in
  reachable st
  ∧ redo_stack st = [] ++ [plain_move e2 e4]
  ∧ redo_move st = redo_move_validating st
  ∧ is_legal (position (board st)) (plain_move e2 e4) = true
  ∧ redo_move st = Done PyNone (redone [] (plain_move e2 e4) "e4" st).
Proof.
  intros st.
  assert (E : redo_stack st = [] ++ [plain_move e2 e4]) by run_eq.
  assert (Hr : reachable st).
  { apply (reach_exec (after_commands [MoveCmd "e4"] start) Undo PyNone);
      [|run_eq].
    apply (reach_exec start (MoveCmd "e4") PyNone); [apply reach_init | run_eq]. }
  destruct (redo_revalidates st Hr) as (H1 & H2).
  destruct (H2 [] (plain_move e2 e4) E) as (Hl & s & Hs & Hd).
  assert (Es : s = "e4").
  { assert (Hs' : Some s = Some "e4") by (rewrite <- Hs; run_eq).
    now injection Hs'. }
  rewrite Es in Hd.
  conjs; assumption.
Defined.



(** C8 (the code departs from the claim).  After 1. e4 e5 and two undos,
    [redo_move] puts e4 back on the board and in the notation list without
    a call of [save_pgn]: the transcript is what it was, with nothing
    written, and its content, the record of 1. e4 e5, is not the record
    of the one move now on the board.  [make_move], the other place where
    a move is applied, does call [save_pgn]. *)
Theorem redo_skips_transcript :
  let st := after_commands [MoveCmd "e4"; MoveCmd "e5"; Undo; Undo] start in
  let st' := state_of (redo_move st) in
  move_stack (board st) = [] ∧ move_stack (board st') = [plain_move e2 e4]
  ∧ move_history st' = ["e4"]
  ∧ game_log st' = game_log st
  ∧ last (game_log st') = Some "1. e4 e5 *"
  ∧ pgn_text (move_stack (board st')) = "1. e4 *"
  ∧ ¬ transcript_follows Redo st.
Proof.
  intros st st'. conjs; try run_eq.
  unfold transcript_follows. intros H.
  assert (Hlt : length (move_stack (board st))
                < length (move_stack (board (state_of (exec Redo st)))))
    by (vm_compute; lia).
  specialize (H Hlt). vm_compute in H. discriminate.
Qed.

(** [undo_move] does not return a boolean: after 1. e4 it takes the move
    back and returns [None]; at the start it does nothing and returns
    [None]. *)
Lemma undo_result_is_not_bool :
  (∃ st', undo_move (after ["e4"] start) = Done PyNone st')
  ∧ ¬ (∃ st', undo_move (after ["e4"] start) = Done (PyBool true) st')
  ∧ undo_move start = Done PyNone start
  ∧ ¬ undo_returns_bool.
Proof.
  assert (H : undo_move (after ["e4"] start)
              = Done PyNone (state_of (undo_move (after ["e4"] start))))
    by run_eq.
  assert (H0 : undo_move start = Done PyNone start) by run_eq.
  conjs.
  - eauto.
  - intros [st' H']. rewrite H in H'. discriminate.
  - exact H0.
  - intros Hb. destruct (Hb start) as [st' H']. rewrite H0 in H'. discriminate.
Qed.

Lemma undo_move_returns_none_witness :
  let st := after ["e4"] start in
  length (move_history st) = length (move_stack (board st))
  ∧ length (state_stack (board st)) = length (move_stack (board st))
  ∧ undo_move start = Done PyNone start
  ∧ ∃ ss p h s,
      state_stack (board st) = ss ++ [p] ∧ move_history st = h ++ [s]
      ∧ undo_move st = Done PyNone (undone p [] ss h (plain_move e2 e4) st).
Proof.
  intros st.
  assert (H1 : length (move_history st) = length (move_stack (board st)))
    by run_eq.
  assert (H2 : length (state_stack (board st)) = length (move_stack (board st)))
    by run_eq.
  destruct (undo_move_returns_none st H1 H2) as (_ & Hs).
  destruct (undo_move_returns_none start eq_refl eq_refl) as (He & _).
  conjs; try assumption.
  - apply He. reflexivity.
  - apply (Hs [] (plain_move e2 e4)). run_eq.
Defined.

Lemma notation_follows_board_witness :
  notation_inv start
  ∧ notation_inv (state_of (exec (MoveCmd "e4") start))
  ∧ move_history (state_of (exec (MoveCmd "e4") start)) = ["e4"].
Proof.
  assert (H : notation_inv start).
  { split; [reflexivity|]. split; [reflexivity|].
    intros i p m s Hp. destruct i; discriminate. }
  conjs.
  - exact H.
  - exact (notation_follows_board (MoveCmd "e4") start H).
  - run_eq.
Defined.

End Runs.

(** * Further properties of the program *)

(** ** Characters *)

Lemma upper_not_lower (c : ascii) : is_lower (upper c) = false.
Proof. destruct c as [[] [] [] [] [] [] [] []]; reflexivity. Qed.

Lemma upper_idem (c : ascii) : upper (upper c) = upper c.
Proof. destruct c as [[] [] [] [] [] [] [] []]; reflexivity. Qed.

Lemma upper_space (c : ascii) : upper c = " "%char → c = " "%char.
Proof. destruct c as [[] [] [] [] [] [] [] []]; intros H; try reflexivity; discriminate. Qed.

Lemma upper_keeps_non_upper (c : ascii) :
  is_lower c = false → upper c = c.
Proof. destruct c as [[] [] [] [] [] [] [] []]; intros H; try reflexivity; discriminate. Qed.

Lemma lower_not_upper (c : ascii) : is_upper (lower c) = false.
Proof. destruct c as [[] [] [] [] [] [] [] []]; reflexivity. Qed.

Lemma get_lower_str (s : string) (i : nat) (c : ascii) :
  String.get i (lower_str s) = Some c → is_upper c = false.
Proof.
  revert i. induction s as [|a s IH]; intros i; simpl; [discriminate|].
  destruct i as [|i]; [|apply IH].
  intros [= <-]. apply lower_not_upper.
Qed.

Lemma get_remove_spaces (s : string) (i : nat) (c : ascii) :
  String.get i (remove_spaces s) = Some c →
  c ≠ " "%char ∧ ∃ j, String.get j s = Some c.
Proof.
  revert i. induction s as [|a s IH]; intros i; simpl; [discriminate|].
  destruct (Ascii.eqb_spec a " "%char) as [->|Ha].
  - intros H. destruct (IH _ H) as [Hc [j Hj]]. split; [exact Hc|]. now exists (S j).
  - destruct i as [|i]; simpl.
    + intros [= <-]. split; [exact Ha|]. now exists 0.
    + intros H. destruct (IH _ H) as [Hc [j Hj]]. split; [exact Hc|]. now exists (S j).
Qed.

Lemma remove_spaces_fixed (s : string) :
  (∀ i, String.get i s ≠ Some " "%char) → remove_spaces s = s.
Proof.
  induction s as [|a s IH]; intros H; simpl; [reflexivity|].
  destruct (Ascii.eqb_spec a " "%char) as [->|Ha].
  - now destruct (H 0).
  - f_equal. apply IH. intros i. apply (H (S i)).
Qed.

(** ** The command interpreter, in full *)

(** The three branches of [parse_command] on a string that is not empty. *)
Lemma parse_command_branches (cmd : string) :
  cmd ≠ "" →
  (remove_spaces cmd = "" ∧ parse_command cmd = Err IndexError)
  ∨ (remove_spaces cmd ≠ ""
     ∧ (str_in (remove_spaces cmd) control_words = true
        ∨ String.length (remove_spaces cmd) = 2)
     ∧ parse_command cmd = Ok (Some (remove_spaces cmd)))
  ∨ (∃ c rest, remove_spaces cmd = String c rest
       ∧ str_in (String c rest) control_words = false
       ∧ String.length (String c rest) ≠ 2
       ∧ parse_command cmd = Ok (Some (String (upper c) rest))).
Proof.
  intros Hne. unfold parse_command.
  destruct (String.eqb_spec cmd "") as [->|_]; [now destruct Hne|].
  fold control_words.
  destruct (remove_spaces cmd) as [|c rest] eqn:E; [now left|].
  right.
  destruct (str_in (String c rest) control_words) eqn:Hc.
  { left. split; [discriminate|]. split; [now left | reflexivity]. }
  destruct (Nat.eqb_spec (String.length (String c rest)) 2) as [Hl|Hl].
  { left. split; [discriminate|]. split; [now right | reflexivity]. }
  right. now exists c, rest.
Qed.

(** X1.  [parse_command] returns [None] exactly on the empty string; it
    raises exactly on the non-empty strings made of spaces only, always
    with [IndexError]; on every other string it returns a string. *)
Theorem parse_command_outcomes (cmd : string) :
  (parse_command cmd = Ok None ↔ cmd = "")
  ∧ (∀ e, parse_command cmd = Err e ↔
          e = IndexError ∧ cmd ≠ "" ∧ remove_spaces cmd = "")
  ∧ ((∃ tok, parse_command cmd = Ok (Some tok)) ↔ remove_spaces cmd ≠ "").
Proof.
  destruct (String.eqb_spec cmd "") as [->|Hne].
  - split; [|split].
    + split; reflexivity.
    + intros e. split; [discriminate | intros (_ & H & _); now destruct H].
    + split; [intros [tok H]; discriminate | intros H; now destruct H].
  - destruct (parse_command_branches cmd Hne)
      as [[E ->]|[(E & _ & ->)|(c & rest & E & _ & _ & ->)]].
    + split; [|split].
      * split; [discriminate | intros ->; now destruct Hne].
      * intros e. split; [intros [= <-]; auto | intros (-> & _); reflexivity].
      * split; [intros [tok H]; discriminate | intros H; now destruct H].
    + split; [|split].
      * split; [discriminate | intros ->; now destruct Hne].
      * intros e. split; [discriminate | intros (_ & _ & H); now destruct E].
      * split; [intros _; exact E | intros _; eauto].
    + split; [|split].
      * split; [discriminate | intros ->; now destruct Hne].
      * intros e. split; [discriminate | intros (_ & _ & H); congruence].
      * split; [intros _; congruence | eauto].
Qed.

Lemma parse_command_token_shape (cmd tok : string) :
  parse_command cmd = Ok (Some tok) →
  tok ≠ ""
  ∧ (∀ i, String.get i tok ≠ Some " "%char)
  ∧ String.length tok = String.length (remove_spaces cmd).
Proof.
  intros H.
  assert (Hne : cmd ≠ "") by (intros ->; discriminate).
  destruct (parse_command_branches cmd Hne)
    as [[E H']|[(E & _ & H')|(c & rest & E & _ & _ & H')]];
    rewrite H' in H; [discriminate| |]; injection H as <-.
  - split; [exact E|]. split; [|reflexivity].
    intros i Hi. now apply get_remove_spaces in Hi as [Hc _].
  - rewrite E. split; [discriminate|]. split; [|reflexivity].
    intros [|i] Hi; simpl in Hi.
    + injection Hi as Hi. apply upper_space in Hi. subst c.
      destruct (get_remove_spaces cmd 0 " "%char) as [Hc _]; [now rewrite E|].
      now destruct Hc.
    + destruct (get_remove_spaces cmd (S i) " "%char) as [Hc _]; [now rewrite E|].
      now destruct Hc.
Qed.

(** X2.  For a command of ASCII characters, a string returned by
    [parse_command] is not empty, holds no space, and has as many
    characters as the command has characters other than spaces. *)
Theorem parse_command_token_has_no_space (cmd tok : string) :
  ascii_only cmd = true →
  parse_command cmd = Ok (Some tok) →
  tok ≠ ""
  ∧ (∀ i, String.get i tok ≠ Some " "%char)
  ∧ String.length tok = String.length (remove_spaces cmd).
Proof. intros _. apply parse_command_token_shape. Qed.

Lemma parse_command_token_witness :
  ascii_only " e 4 " = true
  ∧ parse_command " e 4 " = Ok (Some "e4")
  ∧ String.length "e4" = String.length (remove_spaces " e 4 ").
Proof.
  split; [reflexivity|]. split; [reflexivity|].
  now destruct (parse_command_token_has_no_space " e 4 " "e4" eq_refl eq_refl)
    as (_ & _ & H).
Defined.

Lemma control_words_cases (w : string) :
  str_in w control_words = true →
  w = "undo" ∨ w = "redo" ∨ w = "playbestmove".
Proof.
  unfold str_in, control_words. cbn [existsb].
  rewrite !orb_true_iff, !String.eqb_eq. intros [H|[H|[H|H]]]; auto.
  discriminate.
Qed.

Lemma control_word_not_capitalised (c : ascii) (rest w : string) :
  str_in w control_words = true → String (upper c) rest = w →
  String c rest = w.
Proof.
  intros Hw E.
  assert (Hl : is_lower (upper c) = true).
  { apply control_words_cases in Hw as [-> | [-> | ->]];
      injection E as -> _; reflexivity. }
  now rewrite upper_not_lower in Hl.
Qed.

Lemma parse_command_control_iff (cmd w : string) :
  str_in w control_words = true →
  (parse_command cmd = Ok (Some w) ↔ remove_spaces cmd = w).
Proof.
  intros Hw.
  assert (Hw0 : w ≠ "") by (intros ->; discriminate).
  assert (Hw2 : String.length w ≠ 2).
  { destruct (control_words_cases w Hw) as [-> | [-> | ->]]; simpl; lia. }
  destruct (String.eqb_spec cmd "") as [->|Hne].
  { split; [discriminate|]. simpl. intros <-. now destruct Hw0. }
  destruct (parse_command_branches cmd Hne)
    as [[E ->]|[(E & Hb & ->)|(c & rest & E & Hc & _ & ->)]].
  - split; [discriminate|]. rewrite E. intros <-. now destruct Hw0.
  - split; congruence.
  - split.
    + intros [= H]. apply (control_word_not_capitalised _ _ _ Hw) in H.
      congruence.
    + intros H. rewrite E in H. subst w. congruence.
Qed.

(** X3.  [parse_command] returns a control word exactly when the input
    without its spaces is that word: spacing does not matter, letter case
    does, and the capital put on other strings never makes a control
    word. *)
Theorem parse_command_control_word (cmd w : string) :
  str_in w control_words = true →
  (parse_command cmd = Ok (Some w) ↔ remove_spaces cmd = w).
Proof. apply parse_command_control_iff. Qed.

Lemma parse_command_control_witness :
  parse_command "play best move" = Ok (Some "playbestmove")
  ∧ parse_command "Undo" ≠ Ok (Some "undo").
Proof.
  split.
  - now apply (parse_command_control_word "play best move" "playbestmove" eq_refl).
  - intros H.
    apply (parse_command_control_word "Undo" "undo" eq_refl) in H. discriminate.
Defined.

(** X4.  Interpreting a string that [parse_command] has returned gives
    the same string again. *)
Theorem parse_command_idempotent (cmd tok : string) :
  parse_command cmd = Ok (Some tok) → parse_command tok = Ok (Some tok).
Proof.
  intros H.
  destruct (parse_command_token_shape cmd tok H) as (Hne & Hsp & _).
  pose proof (remove_spaces_fixed tok Hsp) as Hfix.
  assert (Hcmd : cmd ≠ "") by (intros ->; discriminate).
  destruct (parse_command_branches tok Hne)
    as [[E _]|[(_ & _ & H')|(c' & rest' & E' & Hc' & Hl' & H')]];
    rewrite Hfix in *; [congruence|exact H'|].
  rewrite H'.
  destruct (parse_command_branches cmd Hcmd)
    as [[E H0]|[(E & Hb & H0)|(c & rest & E & Hc & Hl & H0)]];
    rewrite H0 in H; [discriminate| |]; injection H as H.
  - rewrite H in Hb. destruct Hb as [Hb|Hb]; congruence.
  - rewrite <- H in E'. injection E' as <- <-. now rewrite upper_idem, H.
Qed.

Lemma parse_command_idempotent_witness :
  parse_command "knight f3" = Ok (Some "Knightf3")
  ∧ parse_command "Knightf3" = Ok (Some "Knightf3").
Proof.
  split; [reflexivity|].
  now apply (parse_command_idempotent "knight f3" "Knightf3").
Defined.

(** X5.  For a transcript of ASCII characters: what the recogniser
    returns holds no capital letter, so in a string that [parse_command]
    makes of it no character after the first is a capital letter; when
    the string is not a control word and not of length 2, its first
    character is not a small letter.  In particular the castling notation
    [O-O] never comes out of a spoken command, and a coordinate pair such
    as [e2e4] comes out as [E2e4]. *)
Theorem spoken_token_letter_case (transcript tok : string) :
  ascii_only transcript = true →
  parse_command (lower_str transcript) = Ok (Some tok) →
  (∀ i c, String.get (S i) tok = Some c → is_upper c = false)
  ∧ (str_in tok control_words = false → String.length tok ≠ 2 →
     ∃ c rest, tok = String c rest ∧ is_lower c = false)
  ∧ tok ≠ "O-O".
Proof.
  intros _ H.
  assert (Hcase : ∀ i c, String.get i (remove_spaces (lower_str transcript)) = Some c
                         → is_upper c = false).
  { intros i c Hi. apply get_remove_spaces in Hi as [_ [j Hj]].
    now apply get_lower_str in Hj. }
  assert (Hne : lower_str transcript ≠ "") by (intros E; rewrite E in H; discriminate).
  assert (Htail : ∀ i c, String.get (S i) tok = Some c → is_upper c = false).
  { destruct (parse_command_branches _ Hne)
      as [[E H']|[(E & _ & H')|(c & rest & E & _ & _ & H')]];
      rewrite H' in H; [discriminate| |]; injection H as <-.
    - intros i c. apply Hcase.
    - intros i c' Hi. apply (Hcase (S i)). now rewrite E. }
  split; [exact Htail|]. split.
  - intros Hc Hl.
    destruct (parse_command_branches _ Hne)
      as [[E H']|[(E & Hb & H')|(c & rest & E & _ & _ & H')]];
      rewrite H' in H; [discriminate| |]; injection H as <-.
    + destruct Hb as [Hb|Hb]; congruence.
    + exists (upper c), rest. split; [reflexivity | apply upper_not_lower].
  - intros ->. now specialize (Htail 1 "O"%char eq_refl).
Qed.

Lemma spoken_token_witness :
  ascii_only "E2 E4" = true
  ∧ parse_command (lower_str "E2 E4") = Ok (Some "E2e4")
  ∧ ∃ c rest, "E2e4" = String c rest ∧ is_lower c = false.
Proof.
  split; [reflexivity|]. split; [reflexivity|].
  destruct (spoken_token_letter_case "E2 E4" "E2e4" eq_refl eq_refl) as (_ & H & _).
  apply H; [reflexivity | simpl; lia].
Defined.

Section MoreProperties.
Context `{L : ChessLib}.

Implicit Types (st : State) (b : Board) (m : Move) (p : Position).

(** ** [make_move], [undo_move] and [redo_move] together *)

Lemma make_move_always_returns_aux (move_str : string) st :
  ∃ st', make_move move_str st = Done PyNone st'.
Proof.
  destruct (make_move_cases move_str st)
    as [(m & s & _ & _ & _ & ->)|(_ & line & ->)]; eauto.
Qed.

(** X6.  [make_move] never raises and returns [None], whatever string
    it is given, and it touches neither the engine nor the window.  On
    the board, the notation list and the redo stack it does one of two
    things: it leaves the three as they were, or it pushes one move, legal
    in the position, appends the notation of that move and empties the
    redo stack. *)
Theorem make_move_always_returns (move_str : string) st :
  ∃ st', make_move move_str st = Done PyNone st'
    ∧ engine st' = engine st ∧ screen st' = screen st
    ∧ ((board st' = board st
        ∧ move_history st' = move_history st
        ∧ redo_stack st' = redo_stack st)
       ∨ (∃ m s, is_legal (position (board st)) m = true
                 ∧ san (position (board st)) m = Some s
                 ∧ board st' = push (board st) m
                 ∧ move_history st' = move_history st ++ [s]
                 ∧ redo_stack st' = [])).
Proof.
  destruct (make_move_cases move_str st)
    as [(m & s & _ & Hl & Hs & ->)|(_ & line & ->)].
  - exists (commit m s st). repeat split. right. now exists m, s.
  - exists (refused line st). repeat split. now left.
Qed.

(** X7.  A committed move followed by an undo gives back the board and
    the notation list of before, with the move alone on the redo stack;
    a redo then gives exactly the state the commit had left. *)
Theorem commit_undo_redo (tok : string) st m (s : string) :
  committed_move (position (board st)) tok = Some (m, s) →
  ∃ st1, (make_move tok ;;; undo_move) st = Done PyNone st1
    ∧ board st1 = board st
    ∧ move_history st1 = move_history st
    ∧ redo_stack st1 = [m]
    ∧ redo_move st1 = make_move tok st.
Proof.
  intros Hc. destruct (make_move_committed _ _ _ _ Hc) as (Hmk & _ & _ & Hs).
  set (st1 := undone (position (board st)) (move_stack (board st))
                     (state_stack (board st)) (move_history st) m (commit m s st)).
  assert (Hu : undo_move (commit m s st) = Done PyNone st1)
    by now apply (undo_move_snoc _ _ _ _ _ _ s).
  exists st1. split; [|split; [|split; [|split]]].
  - now rewrite (bind_Done _ _ _ _ _ Hmk).
  - simpl. apply board_eta.
  - reflexivity.
  - reflexivity.
  - rewrite Hmk. rewrite (redo_move_snoc st1 [] m s); [|reflexivity|exact Hs].
    unfold redone, commit, st1. simpl. now rewrite board_eta.
Qed.

(** X8.  A redo followed by an undo is the identity: when the move on
    top of the redo stack can be rendered, playing it again and taking it
    back returns and leaves the whole state as it was. *)
Theorem redo_then_undo st (r : list Move) m (s : string) :
  redo_stack st = r ++ [m] →
  san (position (board st)) m = Some s →
  (redo_move ;;; undo_move) st = Done PyNone st.
Proof.
  intros Hr Hs.
  rewrite (bind_Done _ _ _ _ _ (redo_move_snoc _ _ _ _ Hr Hs)).
  rewrite (undo_move_snoc (redone r m s st) (move_stack (board st)) m
             (state_stack (board st)) (position (board st))
             (move_history st) s); try reflexivity.
  unfold undone, redone. simpl. rewrite board_eta, <- Hr. now destruct st.
Qed.

(** X9.  On a state the session can be in, [undo_move] and [redo_move]
    never raise; they move one move between the board and the redo stack
    or do nothing, so the number of stacked moves plus the number of
    moves awaiting redo stays the same, and they neither write the
    transcript nor print. *)
Theorem undo_redo_conserve (c : command) st :
  session_inv st → c = Undo ∨ c = Redo →
  ∃ st', exec c st = Done PyNone st'
    ∧ length (move_stack (board st')) + length (redo_stack st')
      = length (move_stack (board st)) + length (redo_stack st)
    ∧ game_log st' = game_log st ∧ console st' = console st
    ∧ session_inv st'.
Proof.
  intros Hinv Hc.
  assert (Hinv' : session_inv (state_of (exec c st))) by now apply session_inv_exec.
  destruct Hinv as [Hp Hr]. destruct Hc as [-> | ->]; simpl in *.
  - destruct (move_stack_cases (board st)) as [E|(ms & m & E)].
    + rewrite (undo_move_empty _ E) in *. now exists st.
    + destruct (played_last _ _ Hp) as (b0 & h0 & m0 & s & Hb & Hh & _).
      { rewrite E. now destruct ms. }
      assert (Hu : undo_move st
                   = Done PyNone (undone (position b0) (move_stack b0)
                                         (state_stack b0) h0 m0 st)).
      { apply (undo_move_snoc _ _ _ _ _ _ s); [now rewrite Hb..|exact Hh]. }
      rewrite Hu in *.
      eexists. split; [reflexivity|]. simpl. rewrite Hb. simpl.
      rewrite !length_app. simpl. split; [lia|]. split; [reflexivity|]. split; [reflexivity|exact Hinv'].
  - destruct (redo_stack_cases st) as [E|(r & m & E)].
    + rewrite (redo_move_empty _ E) in *. now exists st.
    + rewrite E in Hr. apply redo_ok_last in Hr as (_ & [s Hs] & _).
      rewrite (redo_move_snoc _ _ _ _ E Hs) in *.
      eexists. split; [reflexivity|]. simpl. rewrite E.
      rewrite !length_app. simpl. split; [lia|]. split; [reflexivity|]. split; [reflexivity|exact Hinv'].
Qed.

(** ** The advisor *)

(** X11.  With an engine, a suggested move that is legal, that is not
    the null move, and whose notation parses back to it, is committed by
    [play_best] exactly as [make_move] commits a spoken move. *)
Theorem play_best_commits st m (s : string) :
  engine st = true →
  move_bool m = true →
  is_legal (position (board st)) m = true →
  san (position (board st)) m = Some s →
  parse_san (position (board st)) s = Some m →
  play_best (PlayResult (Some m)) st = Done PyNone (commit m s st).
Proof.
  intros He Hb Hl Hs Hp.
  unfold play_best, bind, get. rewrite He. simpl. rewrite Hs. simpl.
  rewrite make_move_settle. unfold resolve_move, settle. rewrite Hp.
  unfold move_ok. now rewrite Hb, Hl, Hs.
Qed.

Lemma play_best_raises_cases (a : play_answer) st :
  ((∃ e st', play_best a st = Raised e st')
   ↔ engine st = true
     ∧ (a = PlayFails ∨ a = PlayResult None
        ∨ ∃ m, a = PlayResult (Some m) ∧ san (position (board st)) m = None))
  ∧ (∀ e st', play_best a st = Raised e st' → st' = st)
  ∧ (engine st = false → play_best a st = Done PyNone st).
Proof.
  unfold play_best, bind, get.
  destruct (engine st) eqn:He; simpl.
  - destruct a as [|[m|]]; simpl.
    + split; [|split; [|discriminate]].
      * split; [intros _; split; [reflexivity | now left] | eauto].
      * now intros e st' [= _ <-].
    + destruct (san (position (board st)) m) as [s|] eqn:Hs; simpl.
      * destruct (make_move_always_returns_aux s st) as [st1 H1]. rewrite H1.
        split; [|split; [|discriminate]].
        -- split; [intros (e & st' & H); discriminate|].
           intros (_ & [H|[H|(m' & H & Hn)]]); try discriminate.
           injection H as <-. congruence.
        -- discriminate.
      * split; [|split; [|discriminate]].
        -- split; [|eauto]. intros _. split; [reflexivity|].
           right; right. now exists m.
        -- now intros e st' [= _ <-].
    + split; [|split; [|discriminate]].
      * split; [intros _; split; [reflexivity | right; now left] | eauto].
      * now intros e st' [= _ <-].
  - split; [|split; [discriminate|reflexivity]].
    split; [intros (e & st' & H); discriminate | intros [H _]; discriminate].
Qed.

(** X12.  [play_best] raises exactly when there is an engine and the
    engine fails, or gives no move, or gives a move that [board.san]
    cannot render; the state is then unchanged.  Without an engine it
    does nothing. *)
Theorem play_best_raises_iff (a : play_answer) st :
  ((∃ e st', play_best a st = Raised e st')
   ↔ engine st = true
     ∧ (a = PlayFails ∨ a = PlayResult None
        ∨ ∃ m, a = PlayResult (Some m) ∧ san (position (board st)) m = None))
  ∧ (∀ e st', play_best a st = Raised e st' → st' = st)
  ∧ (engine st = false → play_best a st = Done PyNone st).
Proof. apply play_best_raises_cases. Qed.

(** ** The status line *)

(** X13.  [draw_status] never raises, whatever the engine answers: it
    returns [None] after drawing at most two texts, at most one when
    there is no engine, and changes nothing but the screen. *)
Theorem draw_status_never_raises (aa : analyse_answer) st :
  ∃ texts, draw_status aa st = Done PyNone (set_screen (screen st ++ texts) st)
    ∧ (length texts ≤ 2)%nat
    ∧ (engine st = false → (length texts ≤ 1)%nat).
Proof.
  unfold draw_status, bind, get, blit, modify, try_except.
  assert (H0 : Done PyNone st = Done PyNone (set_screen (screen st ++ []) st))
    by now rewrite app_nil_r, set_screen_id.
  assert (H2 : ∀ (x y : string),
             Done PyNone (set_screen ((screen st ++ [x]) ++ [y]) st)
             = Done PyNone (set_screen (screen st ++ [x; y]) st))
    by (intros x y; now rewrite <- app_assoc).
  destruct (engine st) eqn:He.
  - destruct (is_checkmate _); [|destruct (is_check _); [|destruct (is_stalemate _)]];
      simpl; rewrite ?He; simpl;
      (destruct aa as [|[pv|]]; simpl;
       [eexists; split; [first [exact H0|reflexivity]|simpl; split; [lia|discriminate]]..
       | |eexists; split; [first [exact H0|reflexivity]|simpl; split; [lia|discriminate]]]);
      (destruct (head pv) as [m|]; simpl;
       [|eexists; split; [first [exact H0|reflexivity]|simpl; split; [lia|discriminate]]]);
      (destruct (san _ m); simpl;
       eexists; (split; [first [exact H0|apply H2|reflexivity]
                       |simpl; split; [lia|discriminate]])).
  - destruct (is_checkmate _); [|destruct (is_check _); [|destruct (is_stalemate _)]];
      simpl; rewrite ?He; simpl;
      (eexists; split; [first [exact H0|reflexivity]|simpl; split; lia]).
Qed.

(** ** The main loop *)

Lemma main_iteration_cases (aa : analyse_answer) (speech : option string)
    (pa : play_answer) st :
  ∃ scr,
    draw_status aa st = Done PyNone (set_screen scr st)
    ∧ main_iteration aa speech pa st
      = match speech with
        | None => Done PyNone (set_screen scr st)
        | Some cmd =>
            if String.eqb cmd "" then Done PyNone (set_screen scr st)
            else
              match parse_command cmd with
              | Err e => Raised e (set_screen scr st)
              | Ok (Some c) => dispatch c pa (set_screen scr st)
              | Ok None =>
                  Done PyNone
                    (refused ("Move error: " +:+ exn_name TypeError)
                             (set_screen scr st))
              end
        end.
Proof.
  destruct (draw_status_screen_only aa st) as [scr Hd]. exists scr.
  split; [exact Hd|]. unfold main_iteration.
  rewrite (bind_Done _ _ _ _ _ Hd).
  destruct speech as [cmd|]; [|reflexivity].
  destruct (String.eqb cmd ""); [reflexivity|].
  unfold bind, of_result. now destruct (parse_command cmd) as [[c|]|e].
Qed.

Lemma dispatch_cases (c : string) (pa : play_answer) st :
  (c = "undo" ∧ dispatch c pa st = undo_move st)
  ∨ (c = "redo" ∧ dispatch c pa st = redo_move st)
  ∨ (c = "playbestmove" ∧ dispatch c pa st = play_best pa st)
  ∨ (str_in c control_words = false ∧ dispatch c pa st = make_move c st).
Proof.
  unfold dispatch, str_in, control_words. cbn [existsb].
  destruct (String.eqb_spec c "undo") as [->|_]; [now left|].
  destruct (String.eqb_spec c "redo") as [->|_]; [right; now left|].
  destruct (String.eqb_spec c "playbestmove") as [->|_]; [right; right; now left|].
  right; right; right. now split.
Qed.

Lemma lower_str_empty (t : string) : lower_str t = "" ↔ t = "".
Proof. destruct t; simpl; split; congruence. Qed.

Lemma session_inv_returns st :
  session_inv st →
  (∃ st', undo_move st = Done PyNone st')
  ∧ (∃ st', redo_move st = Done PyNone st').
Proof.
  intros [Hp Hr]. split.
  - destruct (move_stack_cases (board st)) as [E|(ms & m & E)].
    + rewrite (undo_move_empty _ E). eauto.
    + destruct (played_last _ _ Hp) as (b0 & h0 & m0 & s & Hb & Hh & _).
      { rewrite E. now destruct ms. }
      exists (undone (position b0) (move_stack b0) (state_stack b0) h0 m0 st).
      apply (undo_move_snoc _ _ _ _ _ _ s); [now rewrite Hb..|exact Hh].
  - destruct (redo_stack_cases st) as [E|(r & m & E)].
    + rewrite (redo_move_empty _ E). eauto.
    + rewrite E in Hr. apply redo_ok_last in Hr as (_ & [s Hs] & _).
      rewrite (redo_move_snoc _ _ _ _ E Hs). eauto.
Qed.

Lemma played_notation b (h : list string) :
  played b h → notation_inv (mkState b h [] false [] [] []).
Proof.
  induction 1 as [p|b h m s _ IH _ Hs].
  - split; [reflexivity|]. split; [reflexivity|].
    intros i p' m' s' Hp. destruct i; discriminate.
  - now apply (notation_inv_push _ _ m s IH).
Qed.

Lemma session_inv_notation st : session_inv st → notation_inv st.
Proof.
  intros [Hp _]. apply played_notation in Hp.
  now apply (notation_inv_same _ _ eq_refl eq_refl) in Hp.
Qed.

Lemma main_iteration_session_inv (aa : analyse_answer) (speech : option string)
    (pa : play_answer) st :
  session_inv st → session_inv (state_of (main_iteration aa speech pa st)).
Proof.
  intros Hinv.
  destruct (main_iteration_cases aa speech pa st) as (scr & _ & ->).
  assert (Hinv' : session_inv (set_screen scr st)) by exact Hinv.
  destruct speech as [cmd|]; [|exact Hinv'].
  destruct (String.eqb cmd ""); [exact Hinv'|].
  destruct (parse_command cmd) as [[c|]|e]; try exact Hinv'.
  destruct (dispatch_cases c pa (set_screen scr st))
    as [[_ ->]|[[_ ->]|[[_ ->]|[_ ->]]]].
  - now apply (session_inv_exec Undo).
  - now apply (session_inv_exec Redo).
  - now apply (session_inv_exec (PlayBest pa)).
  - now apply (session_inv_exec (MoveCmd c)).
Qed.

Lemma main_passes_session_inv
    (inputs : list (analyse_answer * option string * play_answer)) : ∀ st,
  session_inv st → session_inv (state_of (main_passes inputs st)).
Proof.
  induction inputs as [|[[aa heard] pa] inputs IH]; intros st Hinv; [exact Hinv|].
  pose proof (main_iteration_session_inv aa (recognize_speech heard) pa st Hinv) as H.
  cbn [main_passes]. unfold bind, main_pass.
  destruct (main_iteration aa (recognize_speech heard) pa st) as [v st1|e st1];
    simpl in *; [now apply IH | exact H].
Qed.

(** X14.  Whatever is heard and whatever the engine answers, pass after
    pass of the main loop from the start of the program, the board is one
    built by legal moves with the notation list as their notations, the
    redo stack can be played back legally from the current position, and
    the notation list has the length of the move stack. *)
Theorem main_loop_keeps_session_coherent (has_engine : bool)
    (inputs : list (analyse_answer * option string * play_answer)) :
  let st := state_of (main_passes inputs (initial_state has_engine)) in
  session_inv st ∧ notation_inv st.
Proof.
  intros st.
  assert (H : session_inv st).
  { apply main_passes_session_inv. split; constructor. }
  split; [exact H | now apply session_inv_notation].
Qed.

(** X15.  On a state the session can be in, a pass of the main loop
    raises, and so ends the program, only in two cases: what was heard is
    not empty and consists of spaces only ([IndexError] in
    [parse_command]), or the command is [playbestmove] with an engine
    that fails, gives no move, or gives a move that cannot be rendered.
    Undo, redo and moves, whether accepted or not, never end the program.
    The session data are unchanged when a pass raises. *)
Theorem main_pass_raises_only (aa : analyse_answer) (heard : option string)
    (pa : play_answer) st (e : exn) st' :
  session_inv st →
  main_pass aa heard pa st = Raised e st' →
  session st' = session st
  ∧ ((∃ t, heard = Some t ∧ t ≠ "" ∧ remove_spaces (lower_str t) = ""
           ∧ e = IndexError)
     ∨ (∃ t, heard = Some t ∧ remove_spaces (lower_str t) = "playbestmove"
             ∧ engine st = true
             ∧ (pa = PlayFails ∨ pa = PlayResult None
                ∨ ∃ m, pa = PlayResult (Some m)
                       ∧ san (position (board st)) m = None))).
Proof.
  intros Hinv. unfold main_pass.
  destruct (main_iteration_cases aa (recognize_speech heard) pa st) as (scr & _ & ->).
  destruct heard as [t|]; [|discriminate]. simpl.
  destruct (String.eqb_spec (lower_str t) "") as [E|Hne]; [discriminate|].
  assert (Ht : t ≠ "") by (intros ->; now destruct Hne).
  destruct (parse_command_branches _ Hne)
    as [[E ->]|[(E & _ & Hpc)|(c & rest & E & Hc & _ & ->)]].
  - intros [= <- <-]. split; [reflexivity|]. left. now exists t.
  - rewrite Hpc.
    destruct (dispatch_cases (remove_spaces (lower_str t)) pa (set_screen scr st))
      as [[_ ->]|[[_ ->]|[[Hw ->]|[_ ->]]]].
    + destruct (session_inv_returns (set_screen scr st) Hinv) as [[st1 ->] _].
      discriminate.
    + destruct (session_inv_returns (set_screen scr st) Hinv) as [_ [st1 ->]].
      discriminate.
    + intros H.
      destruct (play_best_raises_cases pa (set_screen scr st)) as (Hiff & Hsame & _).
      pose proof (Hsame _ _ H) as ->.
      split; [reflexivity|]. right. exists t. split; [reflexivity|].
      split; [exact Hw|]. apply Hiff. eauto.
    + destruct (make_move_always_returns_aux (remove_spaces (lower_str t))
                  (set_screen scr st)) as [st1 ->].
      discriminate.
  - destruct (dispatch_cases (String (upper c) rest) pa (set_screen scr st))
      as [[Hw _]|[[Hw _]|[[Hw _]|[_ ->]]]].
    + injection Hw as Hu _. pose proof (upper_not_lower c) as Hl.
      rewrite Hu in Hl. discriminate.
    + injection Hw as Hu _. pose proof (upper_not_lower c) as Hl.
      rewrite Hu in Hl. discriminate.
    + injection Hw as Hu _. pose proof (upper_not_lower c) as Hl.
      rewrite Hu in Hl. discriminate.
    + destruct (make_move_always_returns_aux (String (upper c) rest)
                  (set_screen scr st)) as [st1 ->].
      discriminate.
Qed.

(** X16.  A spoken command that is not a control word and that
    [make_move] does not commit leaves the board, the notation list, the
    redo stack and the transcript as they were, and the pass returns. *)
Theorem main_pass_rejected (aa : analyse_answer) (t tok : string)
    (pa : play_answer) st :
  parse_command (lower_str t) = Ok (Some tok) →
  str_in tok control_words = false →
  committed_move (position (board st)) tok = None →
  ∃ st', main_pass aa (Some t) pa st = Done PyNone st'
    ∧ session st' = session st.
Proof.
  intros Hpc Hc Hrej. unfold main_pass.
  destruct (main_iteration_cases aa (recognize_speech (Some t)) pa st)
    as (scr & _ & ->). simpl.
  destruct (String.eqb_spec (lower_str t) "") as [E|_].
  { rewrite E in Hpc. discriminate. }
  rewrite Hpc.
  destruct (dispatch_cases tok pa (set_screen scr st))
    as [[-> _]|[[-> _]|[[-> _]|[_ ->]]]]; try discriminate.
  destruct (make_move_not_committed tok (set_screen scr st) Hrej) as [line ->].
  eexists. split; reflexivity.
Qed.

(** X17.  The control words are recognised whatever the letter case and
    the spacing of what was heard: a transcript that reads [undo], [redo]
    or [playbestmove] once put in small letters and freed of its spaces
    makes the pass call [undo_move], [redo_move] or [play_best] after the
    status line is drawn. *)
Theorem spoken_control_words (aa : analyse_answer) (t : string)
    (pa : play_answer) st :
  (remove_spaces (lower_str t) = "undo" →
   main_pass aa (Some t) pa st = (draw_status aa ;;; undo_move) st)
  ∧ (remove_spaces (lower_str t) = "redo" →
     main_pass aa (Some t) pa st = (draw_status aa ;;; redo_move) st)
  ∧ (remove_spaces (lower_str t) = "playbestmove" →
     main_pass aa (Some t) pa st = (draw_status aa ;;; play_best pa) st).
Proof.
  assert (H : ∀ w, str_in w control_words = true →
              remove_spaces (lower_str t) = w →
              main_pass aa (Some t) pa st
              = (draw_status aa ;;; dispatch w pa) st).
  { intros w Hw E. unfold main_pass.
    destruct (main_iteration_cases aa (recognize_speech (Some t)) pa st)
      as (scr & Hd & ->). simpl.
    rewrite (bind_Done _ _ _ _ _ Hd).
    apply (parse_command_control_iff _ _ Hw) in E.
    destruct (String.eqb_spec (lower_str t) "") as [E0|_].
    { rewrite E0 in E. discriminate. }
    now rewrite E. }
  split; [|split]; intros E.
  - now rewrite (H "undo" eq_refl E).
  - now rewrite (H "redo" eq_refl E).
  - now rewrite (H "playbestmove" eq_refl E).
Qed.

End MoreProperties.

(** ** The score sheet *)

Local Open Scope nat_scope.

Lemma pair_ind {A : Type} (P : list A → Prop) :
  P [] → (∀ x, P [x]) → (∀ x y l, P l → P (x :: y :: l)) → ∀ l, P l.
Proof.
  intros H0 H1 H2 l.
  assert (H : P l ∧ ∀ x, P (x :: l)); [|apply H].
  induction l as [|y l [IH1 IH2]]; [now split|].
  split; [apply IH2|]. intros x. now apply H2.
Qed.

Lemma turns_from_length (h : list string) : ∀ k,
  length (turns_from k h) = (length h + 1) / 2.
Proof.
  induction h as [|w|w b h IH] using pair_ind; intros k; [reflexivity..|].
  cbn [turns_from length]. rewrite IH.
  replace (S (S (length h)) + 1) with ((length h + 1) + 1 * 2) by lia.
  rewrite Nat.div_add by lia. lia.
Qed.

Lemma turns_from_number (h : list string) : ∀ k j n w b,
  turns_from k h !! j = Some (n, w, b) → n = k + j.
Proof.
  induction h as [|w0|w0 b0 h IH] using pair_ind; intros k j n w b.
  - discriminate.
  - destruct j as [|j]; [|discriminate]. intros [= <- _ _]. lia.
  - cbn [turns_from]. destruct j as [|j]; simpl.
    + intros [= <- _ _]. lia.
    + intros H. apply IH in H. lia.
Qed.

Lemma turns_from_moves (h : list string) : ∀ k,
  concat (turn_moves <$> turns_from k h)
  = if Nat.even (length h) then h else h ++ [""].
Proof.
  induction h as [|w|w b h IH] using pair_ind; intros k; [reflexivity..|].
  cbn [turns_from fmap list_fmap concat turn_moves length Nat.even].
  change (list_fmap _ _ turn_moves (turns_from (S k) h))
    with (turn_moves <$> turns_from (S k) h).
  rewrite IH. now destruct (Nat.even (length h)).
Qed.

(** The first loop of [draw_score], from index [2 * k] on. *)
Lemma group_turns_from (n : nat) : ∀ (h pre : list string) (k : nat),
  (length h ≤ n)%nat → length pre = 2 * k →
  result_map (turn_at (pre ++ h))
             ((λ j, 2 * j) <$> seq k ((length h + 1) / 2))
  = Ok (turns_from (k + 1) h).
Proof.
  induction n as [|n IH]; intros h pre k Hn Hpre.
  - destruct h; [reflexivity | simpl in Hn; lia].
  - destruct h as [|w [|b h]].
    + reflexivity.
    + change ((length [w] + 1) / 2) with 1.
      cbn [seq fmap list_fmap result_map]. unfold turn_at, py_index.
      rewrite (list_lookup_middle pre [] w (2 * k)) by lia.
      cbn [result_bind]. rewrite length_app. cbn [length].
      replace (2 * k + 1 <? length pre + 1) with false
        by (symmetry; apply Nat.ltb_ge; lia).
      cbn [result_bind turns_from].
      replace (2 * k) with (k * 2) by lia. rewrite Nat.div_mul by lia.
      reflexivity.
    + cbn [length turns_from].
      replace (S (S (length h)) + 1) with ((length h + 1) + 1 * 2) by lia.
      rewrite Nat.div_add by lia.
      replace ((length h + 1) / 2 + 1) with (S ((length h + 1) / 2)) by lia.
      cbn [seq fmap list_fmap result_map].
      change (list_fmap _ _ (λ j, 2 * j) (seq (S k) ((length h + 1) / 2)))
        with ((λ j, 2 * j) <$> seq (S k) ((length h + 1) / 2)).
      replace (pre ++ w :: b :: h) with ((pre ++ [w; b]) ++ h)
        by now rewrite <- app_assoc.
      rewrite (IH h (pre ++ [w; b]) (S k));
        [|simpl in Hn; lia|rewrite length_app; simpl; lia].
      rewrite <- app_assoc. cbn [app].
      unfold turn_at at 1, py_index.
      rewrite (list_lookup_middle pre (b :: h) w (2 * k)) by lia.
      cbn [result_bind]. rewrite length_app. cbn [length].
      replace (2 * k + 1 <? length pre + S (S (length h))) with true
        by (symmetry; apply Nat.ltb_lt; lia).
      replace (pre ++ w :: b :: h) with ((pre ++ [w]) ++ b :: h)
        by now rewrite <- app_assoc.
      rewrite (list_lookup_middle (pre ++ [w]) h b (2 * k + 1))
        by (rewrite length_app; simpl; lia).
      cbn [result_bind].
      replace (2 * k) with (k * 2) by lia. rewrite Nat.div_mul by lia.
      replace (S k + 1) with (S (k + 1)) by lia. reflexivity.
Qed.

Lemma group_turns_ok (h : list string) : group_turns h = Ok (turns_from 1 h).
Proof.
  unfold group_turns, range_step2.
  apply (group_turns_from (length h) h [] 0); [lia | reflexivity].
Qed.

(** X18.  The grouping loop of [draw_score] never reads outside the
    notation list: for every list it returns the turns, one for every two
    moves and one more for a last unpaired move, numbered from 1 in
    order; read in order, their moves are the notation list, completed by
    an empty black move when the number of moves is odd. *)
Theorem draw_score_groups_turns (move_history : list string) :
  ∃ turns,
    group_turns move_history = Ok turns
    ∧ length turns = (length move_history + 1) / 2
    ∧ (∀ j n w b, turns !! j = Some (n, w, b) → n = j + 1)
    ∧ concat (turn_moves <$> turns)
      = (if Nat.even (length move_history) then move_history
         else move_history ++ [""])
    ∧ ∃ ops, draw_score move_history = Ok ops.
Proof.
  exists (turns_from 1 move_history).
  split; [apply group_turns_ok|]. split; [apply turns_from_length|].
  split; [|split; [apply turns_from_moves|]].
  - intros j n w b H. apply turns_from_number in H. lia.
  - unfold draw_score. rewrite group_turns_ok. simpl. eauto.
Qed.

Lemma score_rows_layout (turns : list turn) : ∀ y op,
  op ∈ score_rows y turns →
  is_text op = true ∧ (op_x op = 610 ∨ op_x op = 720)
  ∧ y ≤ op_y op ∧ op_y op + 20 ≤ y + 20 * length turns.
Proof.
  induction turns as [|[[n w] b] turns IH]; intros y op; cbn [score_rows length].
  - intros H. now apply elem_of_nil in H.
  - rewrite elem_of_cons, elem_of_app.
    intros [->|[H|H]].
    + simpl. repeat split; [now left|lia..].
    + destruct (String.eqb b ""); [now apply elem_of_nil in H|].
      apply list_elem_of_singleton in H as ->. simpl.
      repeat split; [now right|lia..].
    + apply IH in H as (H1 & H2 & H3 & H4). repeat split; [exact H1|exact H2|lia..].
Qed.

Lemma score_rows_length (turns : list turn) : ∀ y,
  length (score_rows y turns) ≤ 2 * length turns.
Proof.
  induction turns as [|[[n w] b] turns IH]; intros y; cbn [score_rows length]; [lia|].
  rewrite length_app. specialize (IH (y + 20)).
  destruct (String.eqb b ""); simpl; lia.
Qed.

Lemma last_n_length {A : Type} (n : nat) (l : list A) : length (last_n n l) ≤ n.
Proof. unfold last_n. rewrite length_drop. lia. Qed.

(** X19.  Whatever the length of the game, [draw_score] draws at most
    25 turns: the panel, the title and at most 50 move texts, every text
    inside the panel and, with its height of 20, above the lower edge of
    the window. *)
Theorem draw_score_layout (move_history : list string) (ops : list draw_op) :
  draw_score move_history = Ok ops →
  length ops ≤ 52
  ∧ ∀ op, op ∈ ops →
      (is_text op = false → op = DrawRect GREY 600 0 300 600)
      ∧ (is_text op = true →
         covers (DrawRect GREY 600 0 300 600) (op_x op) (op_y op)
         ∧ op_y op + 20 ≤ SCREEN_HEIGHT ∧ op_x op < SCREEN_WIDTH).
Proof.
  unfold draw_score. rewrite group_turns_ok. cbn [result_bind].
  intros [= <-].
  pose proof (last_n_length 25 (turns_from 1 move_history)) as Hn.
  split.
  - cbn [length].
    pose proof (score_rows_length (last_n 25 (turns_from 1 move_history)) 40). lia.
  - intros op. rewrite !elem_of_cons. intros [->|[->|H]].
    + split; [reflexivity | discriminate].
    + split; [discriminate|]. intros _. unfold SCREEN_HEIGHT, SCREEN_WIDTH.
      simpl. lia.
    + apply score_rows_layout in H as (H1 & H2 & H3 & H4).
      split; [congruence|]. intros _. unfold SCREEN_HEIGHT, SCREEN_WIDTH.
      simpl. lia.
Qed.

Lemma draw_score_layout_witness :
  ∃ ops, draw_score ["e4"; "e5"; "Nf3"] = Ok ops ∧ length ops ≤ 52.
Proof.
  eexists. split; [reflexivity|].
  now apply (draw_score_layout ["e4"; "e5"; "Nf3"]).
Defined.

Lemma turns_from_last (h : list string) : ∀ k s,
  last (turns_from k (h ++ [s]))
  = Some (k + length h / 2,
          if Nat.even (length h) then s else default "" (last h),
          if Nat.even (length h) then "" else s).
Proof.
  induction h as [|x|x y h IH] using pair_ind; intros k s.
  - simpl. do 3 f_equal. lia.
  - simpl. do 3 f_equal. lia.
  - cbn [app turns_from].
    assert (Hc : ∀ (a : turn) l v, last l = Some v → last (a :: l) = Some v)
      by (intros a [|? ?] v; [discriminate | auto]).
    rewrite (Hc _ _ _ (IH (S k) s)).
    cbn [length Nat.even].
    assert (Hd : S (S (length h)) / 2 = S (length h / 2)).
    { replace (S (S (length h))) with (length h + 1 * 2) by lia.
      rewrite Nat.div_add by lia. lia. }
    rewrite Hd.
    replace (S k + length h / 2) with (k + S (length h / 2)) by lia.
    destruct (Nat.even (length h)) eqn:Ev; [reflexivity|].
    destruct h as [|z h]; [discriminate|]. reflexivity.
Qed.

Lemma score_rows_snoc (turns : list turn) (t : turn) : ∀ y,
  score_rows y (turns ++ [t])
  = score_rows y turns ++ score_rows (y + 20 * length turns) [t].
Proof.
  induction turns as [|[[n w] b] turns IH]; intros y.
  - cbn [app length]. now replace (y + 20 * 0) with y by lia.
  - cbn [app score_rows length]. rewrite IH.
    replace (y + 20 + 20 * length turns) with (y + 20 * S (length turns)) by lia.
    now rewrite <- !app_assoc.
Qed.

Lemma last_n_snoc {A : Type} (n : nat) (l : list A) (x : A) :
  last_n (S n) (l ++ [x]) = last_n n l ++ [x].
Proof.
  unfold last_n. rewrite length_app. cbn [length].
  replace (length l + 1 - S n) with (length l - n) by lia.
  rewrite drop_app_le by lia. reflexivity.
Qed.

(** X20.  The last move played is always on the score sheet: the row of
    the last turn is drawn, with its number and White's move and, when the
    last move is Black's, that move beside it, at a height inside the
    window. *)
Theorem draw_score_shows_latest (h : list string) (s : string) :
  ∃ ops y,
    draw_score (h ++ [s]) = Ok ops
    ∧ 40 ≤ y ∧ y ≤ 520
    ∧ (let n := length h / 2 + 1 in
       if Nat.even (length h)
       then DrawText (pretty n +:+ ". " +:+ s) BLACK 610 y ∈ ops
       else DrawText (pretty n +:+ ". " +:+ default "" (last h)) BLACK 610 y ∈ ops
            ∧ (s ≠ "" → DrawText s BLACK 720 y ∈ ops)).
Proof.
  unfold draw_score. rewrite group_turns_ok. cbn [result_bind].
  pose proof (turns_from_last h 1 s) as Hlast.
  apply last_Some in Hlast as [l ->].
  rewrite (last_n_snoc 24), score_rows_snoc.
  pose proof (last_n_length 24 l) as Hlen.
  eexists. exists (40 + 20 * length (last_n 24 l)).
  split; [reflexivity|]. split; [lia|]. split; [lia|].
  cbn zeta. replace (length h / 2 + 1) with (1 + length h / 2) by lia.
  destruct (Nat.even (length h)).
  - do 2 apply list_elem_of_further. apply elem_of_app. right.
    cbn [score_rows]. apply list_elem_of_here.
  - split.
    + do 2 apply list_elem_of_further. apply elem_of_app. right.
      cbn [score_rows]. apply list_elem_of_here.
    + intros Hs. do 2 apply list_elem_of_further. apply elem_of_app. right.
      cbn [score_rows]. apply list_elem_of_further.
      destruct (String.eqb_spec s "") as [->|_]; [now destruct Hs|].
      apply list_elem_of_here.
Qed.

(** ** The board and its labels *)

Lemma elem_of_draw_board (op : draw_op) :
  op ∈ draw_board ↔ ∃ r c, r < 8 ∧ c < 8 ∧ op = tile r c.
Proof.
  unfold draw_board. split.
  - intros (r & H & Hr)%list_elem_of_bind.
    apply list_elem_of_bind in H as (c & H & Hc).
    apply list_elem_of_singleton in H.
    apply elem_of_seq in Hr, Hc. exists r, c. repeat split; [lia..|exact H].
  - intros (r & c & Hr & Hc & ->).
    apply list_elem_of_bind. exists r. split; [|apply elem_of_seq; lia].
    apply list_elem_of_bind. exists c. split; [|apply elem_of_seq; lia].
    now apply list_elem_of_singleton.
Qed.

Lemma even_mod_2 (n : nat) : (n mod 2 =? 0) = Nat.even n.
Proof.
  destruct (Nat.even n) eqn:E.
  - apply Nat.even_spec in E as [k ->]. apply Nat.eqb_eq.
    rewrite Nat.mul_comm. apply Nat.Div0.mod_mul.
  - apply Nat.eqb_neq. intros H.
    assert (Ho : Nat.odd n = true) by (rewrite <- Nat.negb_even, E; reflexivity).
    apply Nat.odd_spec in Ho as [k ->].
    replace (2 * k + 1) with (1 + k * 2) in H by lia.
    rewrite Nat.Div0.mod_add in H. discriminate.
Qed.

(** X21.  [draw_board] tiles the 600 by 600 area: every pixel of it
    lies in exactly one of the 64 squares drawn, the one of row [py / 75]
    and column [px / 75], which is light when row plus column is even and
    dark otherwise, so that squares side by side never have the same
    colour. *)
Theorem draw_board_tiles (px py : nat) :
  px < 600 → py < 600 →
  let op := DrawRect (if Nat.even (py / 75 + px / 75) then WHITE else BROWN)
                     (px / 75 * 75) (py / 75 * 75) 75 75 in
  length draw_board = 64
  ∧ op ∈ draw_board
  ∧ covers op px py
  ∧ ∀ op', op' ∈ draw_board → covers op' px py → op' = op.
Proof.
  intros Hx Hy op.
  assert (Hop : op = tile (py / 75) (px / 75))
    by (unfold op, tile, SQUARE_SIZE; now rewrite even_mod_2).
  pose proof (Nat.div_mod_eq px 75) as Dx.
  pose proof (Nat.div_mod_eq py 75) as Dy.
  pose proof (Nat.mod_upper_bound px 75 ltac:(lia)) as Mx.
  pose proof (Nat.mod_upper_bound py 75 ltac:(lia)) as My.
  split; [reflexivity|]. split; [|split].
  - rewrite Hop. apply elem_of_draw_board. exists (py / 75), (px / 75).
    repeat split; apply Nat.Div0.div_lt_upper_bound; lia.
  - unfold op. cbn [covers]. lia.
  - intros op' (r & c & Hr & Hc & ->)%elem_of_draw_board Hcov.
    rewrite Hop. unfold tile, SQUARE_SIZE in Hcov. cbn [covers] in Hcov.
    assert (c = px / 75) as ->
      by (apply (Nat.div_unique px 75 c (px - 75 * c)); lia).
    assert (r = py / 75) as ->
      by (apply (Nat.div_unique py 75 r (py - 75 * r)); lia).
    reflexivity.
Qed.

Lemma draw_board_tiles_witness :
  DrawRect BROWN 0 525 75 75 ∈ draw_board ∧ covers (DrawRect BROWN 0 525 75 75) 10 590.
Proof.
  destruct (draw_board_tiles 10 590) as (_ & H1 & H2 & _); [lia..|].
  split; [exact H1 | exact H2].
Defined.

Lemma draw_labels_value :
  draw_labels
  = Ok [DrawText "a" BLACK 35 580; DrawText "8" BLACK 5 30;
        DrawText "b" BLACK 110 580; DrawText "7" BLACK 5 105;
        DrawText "c" BLACK 185 580; DrawText "6" BLACK 5 180;
        DrawText "d" BLACK 260 580; DrawText "5" BLACK 5 255;
        DrawText "e" BLACK 335 580; DrawText "4" BLACK 5 330;
        DrawText "f" BLACK 410 580; DrawText "3" BLACK 5 405;
        DrawText "g" BLACK 485 580; DrawText "2" BLACK 5 480;
        DrawText "h" BLACK 560 580; DrawText "1" BLACK 5 555].
Proof. vm_compute. reflexivity. Qed.

(** The labels of column [col] and of row [row] of the board. *)
Lemma draw_labels_at (col row : nat) :
  col < 8 → row < 8 →
  ∃ f labels,
    draw_labels = Ok labels
    ∧ String.get col files = Some f
    ∧ DrawText (String f "") BLACK (col * 75 + 35) 580 ∈ labels
    ∧ DrawText (pretty (8 - row)) BLACK 5 (row * 75 + 30) ∈ labels.
Proof.
  intros Hc Hr.
  pose proof draw_labels_value as Hv.
  destruct draw_labels as [labels|e]; [|discriminate].
  injection Hv as ->.
  assert (Hf : ∃ f, String.get col files = Some f
                    ∧ DrawText (String f "") BLACK (col * 75 + 35) 580
                      ∈ [DrawText "a" BLACK 35 580; DrawText "8" BLACK 5 30;
                         DrawText "b" BLACK 110 580; DrawText "7" BLACK 5 105;
                         DrawText "c" BLACK 185 580; DrawText "6" BLACK 5 180;
                         DrawText "d" BLACK 260 580; DrawText "5" BLACK 5 255;
                         DrawText "e" BLACK 335 580; DrawText "4" BLACK 5 330;
                         DrawText "f" BLACK 410 580; DrawText "3" BLACK 5 405;
                         DrawText "g" BLACK 485 580; DrawText "2" BLACK 5 480;
                         DrawText "h" BLACK 560 580; DrawText "1" BLACK 5 555]).
  { do 8 (destruct col as [|col];
          [eexists; split; [reflexivity|]; vm_compute;
           repeat first [apply list_elem_of_here | apply list_elem_of_further]|]).
    lia. }
  destruct Hf as (f & Hg & Hf).
  exists f. eexists. split; [reflexivity|]. split; [exact Hg|].
  split; [exact Hf|].
  do 8 (destruct row as [|row];
        [vm_compute;
         repeat first [apply list_elem_of_here | apply list_elem_of_further]|]).
  lia.
Qed.

Lemma bind_length_at_most_one {A B : Type} (f : A → list B) (l : list A) :
  (∀ x, length (f x) ≤ 1) → length (l ≫= f) ≤ length l.
Proof.
  intros Hf. induction l as [|x l IH]; [reflexivity|].
  rewrite bind_cons, length_app. specialize (Hf x). simpl. lia.
Qed.

Section PiecesProperties.
Context `{L : ChessLib}.
Variable symbol_at : Position → nat → option string.
Variables square_file square_rank : nat → nat.

(** X22.  Every image [draw_pieces] draws is the image of the piece of
    a square of the board, found in the dictionary of loaded images (a
    piece whose image is missing is skipped), one image at most per
    square.  With files and ranks below 8, it is drawn at the corner of a
    square of [draw_board], in the column that [draw_labels] marks with
    the letter of the file of the square and in the row it marks with the
    number of its rank. *)
Theorem draw_pieces_on_their_squares (images : gmap string string)
    (p : Position) (img : string) (x y : Z) :
  (∀ sq, sq < 64 → square_file sq < 8 ∧ square_rank sq < 8) →
  (img, x, y) ∈ draw_pieces symbol_at square_file square_rank images p →
  length (draw_pieces symbol_at square_file square_rank images p) ≤ 64
  ∧ ∃ sq sym f labels,
      sq < 64 ∧ symbol_at p sq = Some sym ∧ images !! sym = Some img
      ∧ let col := square_file sq in
        let row := 7 - square_rank sq in
        x = Z.of_nat (col * 75) ∧ y = Z.of_nat (row * 75)
        ∧ tile row col = DrawRect (if Nat.even (row + col) then WHITE else BROWN)
                                  (col * 75) (row * 75) 75 75
        ∧ tile row col ∈ draw_board
        ∧ draw_labels = Ok labels
        ∧ String.get col files = Some f
        ∧ DrawText (String f "") BLACK (col * 75 + 35) 580 ∈ labels
        ∧ DrawText (pretty (square_rank sq + 1)) BLACK 5 (row * 75 + 30) ∈ labels.
Proof.
  intros Hrange Hin. split.
  - unfold draw_pieces.
    etrans; [apply bind_length_at_most_one|now rewrite length_seq].
    intros sq. destruct (symbol_at p sq) as [sym|]; [|simpl; lia].
    destruct (images !! sym); simpl; lia.
  - unfold draw_pieces in Hin.
    apply list_elem_of_bind in Hin as (sq & Hin & Hsq).
    apply elem_of_seq in Hsq.
    destruct (symbol_at p sq) as [sym|] eqn:Hsym; [|now apply elem_of_nil in Hin].
    destruct (images !! sym) as [img'|] eqn:Himg; [|now apply elem_of_nil in Hin].
    apply list_elem_of_singleton in Hin. injection Hin as -> -> ->.
    destruct (Hrange sq ltac:(lia)) as [Hf Hr].
    destruct (draw_labels_at (square_file sq) (7 - square_rank sq))
      as (f & labels & Hl & Hg & H1 & H2); [lia..|].
    exists sq, sym, f, labels.
    split; [lia|]. split; [exact Hsym|]. split; [exact Himg|].
    cbn zeta. unfold SQUARE_SIZE.
    split; [lia|]. split; [lia|].
    split; [unfold tile, SQUARE_SIZE; now rewrite even_mod_2|].
    split; [apply elem_of_draw_board; eexists _, _; split; [|split; [|reflexivity]]; lia|].
    split; [exact Hl|]. split; [exact Hg|]. split; [exact H1|].
    now replace (square_rank sq + 1) with (8 - (7 - square_rank sq)) by lia.
Qed.

End PiecesProperties.

(** ** The images *)

Lemma load_items_spec (file_exists : string → bool)
    (items : list (string * string)) : ∀ (images : gmap string string) out,
  NoDup items.*1 →
  (∀ k, k ∈ items.*1 → images !! k = None) →
  let r := load_items file_exists items images out in
  (∀ k v, r.1 !! k = Some v ↔
          images !! k = Some v ∨ ((k, v) ∈ items ∧ file_exists v = true))
  ∧ r.2 = out ++ ((λ kv, "Missing image: " +:+ kv.2)
                    <$> filter (λ kv, file_exists kv.2 = false) items)
  ∧ size r.1 + length r.2 = size images + length out + length items.
Proof.
  induction items as [|[k0 v0] items IH]; intros images out Hnd Hfresh.
  - cbn zeta. cbn [load_items fst snd]. split; [|split].
    + intros k v. split; [now left|]. intros [H|[H _]]; [exact H|].
      now apply elem_of_nil in H.
    + now rewrite app_nil_r.
    + simpl. lia.
  - apply NoDup_cons in Hnd as [Hk0 Hnd].
    assert (H0 : images !! k0 = None) by (apply Hfresh; left).
    cbn zeta. cbn [load_items].
    destruct (file_exists v0) eqn:Hex.
    + destruct (IH (<[k0:=v0]> images) out Hnd) as (I1 & I2 & I3).
      { intros k Hk. rewrite lookup_insert_ne; [apply Hfresh; now right|].
        intros ->. contradiction. }
      split; [|split].
      * intros k v. rewrite I1, lookup_insert_Some, elem_of_cons.
        split.
        -- intros [[[-> ->]|[Hne H]]|[H Hv]]; [right|now left|right].
           ++ split; [now left|exact Hex].
           ++ split; [now right|exact Hv].
        -- intros [H|[[[= -> ->]|H] Hv]].
           ++ left. right. split; [|exact H]. intros ->. congruence.
           ++ left. now left.
           ++ right. now split.
      * rewrite I2. rewrite filter_cons_False; [reflexivity|].
        simpl. now rewrite Hex.
      * rewrite I3, map_size_insert_None by exact H0. simpl. lia.
    + destruct (IH images (out ++ ["Missing image: " +:+ v0]) Hnd) as (I1 & I2 & I3).
      { intros k Hk. apply Hfresh. now right. }
      split; [|split].
      * intros k v. rewrite I1, elem_of_cons.
        split.
        -- intros [H|[H Hv]]; [now left|right]. split; [now right|exact Hv].
        -- intros [H|[[[= -> ->]|H] Hv]]; [now left|congruence|right; now split].
      * rewrite I2. rewrite filter_cons_True by exact Hex.
        now rewrite fmap_cons, <- app_assoc.
      * rewrite I3, length_app. simpl. lia.
Qed.

(** X23.  [load_images] loads exactly the images whose file exists, each
    under the symbol of its piece, and prints one line, in the order of
    [PIECES], for each file that is missing; images loaded and lines
    printed are 12 in all. *)
Theorem load_images_loads_existing (file_exists : string → bool) :
  let images := (load_images file_exists).1 in
  let out := (load_images file_exists).2 in
  (∀ k v, images !! k = Some v ↔ (k, v) ∈ PIECES ∧ file_exists v = true)
  ∧ out = (λ kv, "Missing image: " +:+ kv.2)
            <$> filter (λ kv, file_exists kv.2 = false) PIECES
  ∧ size images + length out = 12.
Proof.
  unfold load_images.
  destruct (load_items_spec file_exists PIECES ∅ []) as (H1 & H2 & H3).
  - apply (bool_decide_unpack (NoDup PIECES.*1)). vm_compute. reflexivity.
  - intros k _. apply lookup_empty.
  - split; [|split].
    + intros k v. rewrite H1, lookup_empty. split; [|now right].
      intros [H|H]; [discriminate | exact H].
    + exact H2.
    + rewrite H3, map_size_empty. reflexivity.
Qed.

(** * Further runs on the fragment *)

Section MoreRuns.
Import Fragment Samples WindowSamples.

Local Ltac conjs := repeat match goal with |- _ ∧ _ => split end.

Local Ltac run_eq :=
  lazymatch goal with
  | |- ?a = ?b =>
      let a' := eval vm_compute in a in
      let b' := eval vm_compute in b in
      first [constr_eq a' b' | unify a' b' | fail 1 "the two sides differ"];
      vm_cast_no_check (@eq_refl _ a')
  end.

Lemma session_inv_after_e4 : session_inv (after ["e4"] start).
Proof.
  apply reachable_session_inv.
  apply (reach_exec start (MoveCmd "e4") PyNone); [apply reach_init | run_eq].
Qed.

Lemma commit_undo_redo_witness :
  committed_move (position (board start)) "e4" = Some (plain_move e2 e4, "e4")
  ∧ ∃ st1, (make_move "e4" ;;; undo_move) start = Done PyNone st1
      ∧ board st1 = board start
      ∧ redo_stack st1 = [plain_move e2 e4]
      ∧ redo_move st1 = make_move "e4" start.
Proof.
  assert (H : committed_move (position (board start)) "e4"
              = Some (plain_move e2 e4, "e4")) by run_eq.
  destruct (commit_undo_redo "e4" start _ _ H) as (st1 & H1 & H2 & _ & H4 & H5).
  split; [exact H|]. exists st1. conjs; assumption.
Defined.

Lemma redo_then_undo_witness :
  let st := after_commands [MoveCmd "e4"; Undo] start in
  redo_stack st = [] ++ [plain_move e2 e4]
  ∧ san (position (board st)) (plain_move e2 e4) = Some "e4"
  ∧ (redo_move ;;; undo_move) st = Done PyNone st.
Proof.
  intros st.
  assert (H1 : redo_stack st = [] ++ [plain_move e2 e4]) by run_eq.
  assert (H2 : san (position (board st)) (plain_move e2 e4) = Some "e4") by run_eq.
  conjs; try assumption.
  exact (redo_then_undo st [] (plain_move e2 e4) "e4" H1 H2).
Defined.

Lemma undo_redo_conserve_witness :
  session_inv (after ["e4"] start)
  ∧ ∃ st', exec Undo (after ["e4"] start) = Done PyNone st'
      ∧ length (move_stack (board st')) + length (redo_stack st') = 1 + 0.
Proof.
  split; [exact session_inv_after_e4|].
  destruct (undo_redo_conserve Undo (after ["e4"] start) session_inv_after_e4
              (or_introl eq_refl)) as (st' & H1 & H2 & _).
  exists st'. split; [exact H1|]. rewrite H2.
  f_equal; run_eq.
Defined.

Lemma play_best_commits_witness :
  play_best (suggestion (plain_move e2 e4)) start_engine
  = Done PyNone (commit (plain_move e2 e4) "e4" start_engine).
Proof.
  apply (play_best_commits start_engine (plain_move e2 e4) "e4"); run_eq.
Defined.

Lemma main_pass_raises_only_witness :
  session_inv start
  ∧ main_pass (analysis []) (Some " ") PlayFails start
    = Raised IndexError (state_of (main_pass (analysis []) (Some " ") PlayFails start))
  ∧ session (state_of (main_pass (analysis []) (Some " ") PlayFails start))
    = session start.
Proof.
  assert (Hinv : session_inv start) by (split; constructor).
  assert (H : main_pass (analysis []) (Some " ") PlayFails start
              = Raised IndexError
                  (state_of (main_pass (analysis []) (Some " ") PlayFails start)))
    by run_eq.
  conjs; [exact Hinv | exact H |].
  now destruct (main_pass_raises_only _ _ _ _ _ _ Hinv H) as [Hs _].
Defined.

Lemma main_pass_rejected_witness :
  parse_command (lower_str "Knight F3") = Ok (Some "Knightf3")
  ∧ ∃ st', main_pass (analysis []) (Some "Knight F3") PlayFails start
           = Done PyNone st'
      ∧ session st' = session start.
Proof.
  split; [reflexivity|].
  apply (main_pass_rejected (analysis []) "Knight F3" "Knightf3" PlayFails start);
    [reflexivity | reflexivity | run_eq].
Defined.

Lemma spoken_control_words_witness :
  main_pass (analysis []) (Some "Un Do") PlayFails (after ["e4"] start)
  = (draw_status (analysis []) ;;; undo_move) (after ["e4"] start).
Proof.
  destruct (spoken_control_words (analysis []) "Un Do" PlayFails (after ["e4"] start))
    as (H & _ & _).
  apply H. reflexivity.
Defined.

Lemma draw_pieces_witness :
  let images := (load_images (λ _, true)).1 in
  let pieces := draw_pieces symbol_at (λ sq, sq mod 8) (λ sq, sq / 8) images
                            starting_position in
  ("white-rook.png", 0%Z, 525%Z) ∈ pieces
  ∧ length pieces ≤ 64
  ∧ tile 7 0 ∈ draw_board.
Proof.
  intros images pieces.
  assert (Hin : ("white-rook.png", 0%Z, 525%Z) ∈ pieces).
  { let l := eval vm_compute in pieces in
    assert (E : pieces = l) by (vm_compute; reflexivity).
    rewrite E. apply list_elem_of_here. }
  assert (Hrange : ∀ sq, sq < 64 → sq mod 8 < 8 ∧ sq / 8 < 8).
  { intros sq Hsq. split; [apply Nat.mod_upper_bound; lia|].
    apply Nat.Div0.div_lt_upper_bound. lia. }
  destruct (draw_pieces_on_their_squares (L:=lib) symbol_at (λ sq, sq mod 8)
              (λ sq, sq / 8) images starting_position _ _ _ Hrange Hin)
    as (Hlen & sq & sym & f & labels & _).
  conjs; [exact Hin | exact Hlen |].
  apply elem_of_draw_board. exists 7, 0. conjs; [lia | lia | reflexivity].
Defined.

End MoreRuns.
